(** * Native allocation registry of the memory-lab demo

    A shallow embedding of [native_memory_demo.cpp]: the process-wide
    vector [g_blocks], the helpers [total_allocated_bytes] and
    [free_block], and the three JNI entry points
    [allocateNativeBlocks], [freeAllNativeBlocks] and [getNativeStats].

    Machine integers are carried by [Z] with their wrap-around written
    out.  The width of [size_t] and of pointers is fixed by the target
    ABI, which the source leaves to the build: it is a parameter here.
    The operating system is modelled by the five primitives the source
    calls ([mmap], [malloc], [memset], [munmap], [free]); every call is
    recorded in a trace, and the addresses handed out are chosen by an
    arbitrary oracle. *)

From Stdlib Require Import ZArith String Ascii Bool Lia DecimalString List.
Import ListNotations.
Local Open Scope list_scope.
Local Open Scope Z_scope.

(** ** Machine model *)

(** The Android ABIs differ in the width of [size_t] and [void*]:
    32 bits on armeabi-v7a and x86, 64 bits on arm64-v8a and x86_64. *)
Inductive Abi : Type := ILP32 | LP64.

Definition size_bits (abi : Abi) : Z :=
  match abi with ILP32 => 32 | LP64 => 64 end.

(** [jint] is a signed 32-bit integer on every ABI. *)
Definition jint_min : Z := - 2 ^ 31.
Definition jint_max : Z := 2 ^ 31 - 1.
Definition is_jint (z : Z) : Prop := jint_min <= z <= jint_max.

(** [static_cast<jlong>]: reduction to the signed 64-bit range. *)
Definition to_jlong (z : Z) : Z := (z + 2 ^ 63) mod 2 ^ 64 - 2 ^ 63.

Definition nullptr : Z := 0.

(** struct NativeBlock { void* ptr; size_t size; bool use_mmap; } *)
Record NativeBlock : Type := mkBlock {
  ptr : Z;
  size : Z;
  use_mmap : bool
}.

(** One entry per call of an operating-system primitive, with the
    arguments that matter and, for the two allocators, the result. *)
Inductive Event : Type :=
| CallMmap (len ret : Z)
| CallMalloc (len ret : Z)
| CallMemset (p c len : Z)
| CallMunmap (p len : Z)
| CallFree (p : Z).

(** The state the three operations run in: the global vector
    [g_blocks], the regions the operating system currently has handed
    out to the process (address, length), and the trace of calls. *)
Record World : Type := mkWorld {
  g_blocks : list NativeBlock;
  os_live : list (Z * Z);
  os_trace : list Event
}.

Definition initial_world : World := mkWorld [] [] [].

(** State passing for code that reads and writes the world. *)
Definition Sys (A : Type) : Type := World -> A * World.

Definition ret {A : Type} (a : A) : Sys A := fun w => (a, w).

Definition bind {A B : Type} (m : Sys A) (k : A -> Sys B) : Sys B :=
  fun w => let (a, w') := m w in k a w'.

Notation "x <- m ;; k" := (bind m (fun x => k))
  (at level 61, m at next level, right associativity).
Notation "m ;;; k" := (bind m (fun _ => k))
  (at level 61, right associativity).

Definition run {A : Type} (m : Sys A) (w : World) : World := snd (m w).
Definition result {A : Type} (m : Sys A) (w : World) : A := fst (m w).

(** Range-based [for] over a vector that the body does not modify. *)
Fixpoint for_each {A : Type} (l : list A) (body : A -> Sys unit) : Sys unit :=
  match l with
  | [] => ret tt
  | x :: rest => body x ;;; for_each rest body
  end.

(** ** Text rendering *)

(** [std::to_string] of an unsigned integer: its decimal digits. *)
Definition to_string_unsigned (z : Z) : string :=
  NilZero.string_of_uint (N.to_uint (Z.to_N z)).

(** [num / den] rounded to the nearest integer, ties to the even one. *)
Definition round_half_even (num den : Z) : Z :=
  let q := num / den in
  let r := num mod den in
  if 2 * r <? den then q
  else if den <? 2 * r then q + 1
  else if Z.even q then q else q + 1.

(** A finite non-negative [double], as the dyadic rational
    [mant / 2 ^ scale]. *)
Record double : Type := mkDouble { mant : Z; scale : Z }.

(** [static_cast<double>] of an unsigned integer: the nearest value
    with a 53-bit significand, ties to even. *)
Definition double_of_unsigned (n : Z) : double :=
  let drop := Z.log2 n - 52 in
  if drop <=? 0 then mkDouble n 0
  else mkDouble (round_half_even n (2 ^ drop) * 2 ^ drop) 0.

(** Division by [1024.0 * 1024.0], a power of two: the significand is
    kept and only the exponent changes. *)
Definition div_mib (d : double) : double := mkDouble (mant d) (scale d + 20).

Definition digit (d : Z) : ascii := ascii_of_nat (48 + Z.to_nat d).

Definition six_digits (f : Z) : string :=
  String (digit (f / 100000 mod 10))
  (String (digit (f / 10000 mod 10))
  (String (digit (f / 1000 mod 10))
  (String (digit (f / 100 mod 10))
  (String (digit (f / 10 mod 10))
  (String (digit (f mod 10)) EmptyString))))).

(** [std::to_string] of a [double] prints it with ["%f"]: the value
    rounded to six decimals, ties to even. *)
Definition to_string_double (d : double) : string :=
  let micro := round_half_even (mant d * 10 ^ 6) (2 ^ scale d) in
  (to_string_unsigned (micro / 10 ^ 6) ++ "." ++ six_digits (micro mod 10 ^ 6))%string.

Definition newline : string := String (ascii_of_nat 10) EmptyString.

Section Registry.

Variable abi : Abi.

Definition size_modulus : Z := 2 ^ size_bits abi.

(** Arithmetic on [size_t] is modulo [2 ^ size_bits]. *)
Definition to_size_t (z : Z) : Z := z mod size_modulus.

(** [MAP_FAILED] is [(void* ) -1]. *)
Definition MAP_FAILED : Z := size_modulus - 1.

(** ** Operating system *)

(** The bytes of all regions a process holds at one time lie in its
    user address space, so their lengths add up to less than its size:
    below [2 ^ 32] with 32-bit pointers, and within the lower half of
    the address space with 64-bit pointers. *)
Definition user_space_bytes : Z :=
  match abi with ILP32 => 2 ^ 32 - 1 | LP64 => 2 ^ 63 - 1 end.

Definition mapped_bytes (live : list (Z * Z)) : Z :=
  fold_right (fun e acc => snd e + acc) 0 live.

(** Whether the system can hand out [len] bytes at address [p]: the
    address is neither null nor the failure sentinel, it is not the
    start of a region already handed out, and the request fits in what
    is left of the address space. *)
Definition os_grants (w : World) (p len : Z) : bool :=
  (0 <? p) && (p <? MAP_FAILED)
  && negb (existsb (fun e => fst e =? p) (os_live w))
  && (mapped_bytes (os_live w) + len <=? user_space_bytes).

(** One allocation request: [candidate] is where the system would place
    the region; a request it cannot grant, or chooses not to grant,
    returns [failure]. *)
Definition os_allocate (failure candidate len : Z) (w : World) : Z * list (Z * Z) :=
  if os_grants w candidate len
  then (candidate, (candidate, len) :: os_live w)
  else (failure, os_live w).

(** mmap(nullptr, len, PROT_READ | PROT_WRITE, MAP_PRIVATE | MAP_ANONYMOUS, -1, 0) *)
Definition sys_mmap (candidate len : Z) : Sys Z := fun w =>
  let (r, live) := os_allocate MAP_FAILED candidate len w in
  (r, mkWorld (g_blocks w) live (os_trace w ++ [CallMmap len r])).

(** malloc(len) *)
Definition sys_malloc (candidate len : Z) : Sys Z := fun w =>
  let (r, live) := os_allocate nullptr candidate len w in
  (r, mkWorld (g_blocks w) live (os_trace w ++ [CallMalloc len r])).

(** memset(p, c, len) *)
Definition sys_memset (p c len : Z) : Sys unit := fun w =>
  (tt, mkWorld (g_blocks w) (os_live w) (os_trace w ++ [CallMemset p c len])).

Fixpoint drop_region (keep : Z * Z -> bool) (live : list (Z * Z)) : list (Z * Z) :=
  match live with
  | [] => []
  | e :: rest => if keep e then e :: drop_region keep rest else rest
  end.

(** munmap(p, len) *)
Definition sys_munmap (p len : Z) : Sys unit := fun w =>
  (tt, mkWorld (g_blocks w)
         (drop_region (fun e => negb ((fst e =? p) && (snd e =? len))) (os_live w))
         (os_trace w ++ [CallMunmap p len])).

(** free(p) *)
Definition sys_free (p : Z) : Sys unit := fun w =>
  (tt, mkWorld (g_blocks w)
         (drop_region (fun e => negb (fst e =? p)) (os_live w))
         (os_trace w ++ [CallFree p])).

(** ** The vector [g_blocks] *)

Definition push_back (b : NativeBlock) : Sys unit := fun w =>
  (tt, mkWorld (g_blocks w ++ [b]) (os_live w) (os_trace w)).

Definition clear : Sys unit := fun w =>
  (tt, mkWorld [] (os_live w) (os_trace w)).

Definition blocks_size : Sys Z := fun w =>
  (Z.of_nat (length (g_blocks w)), w).

(** ** native_memory_demo.cpp *)

(** The loop of [total_allocated_bytes]: [total += block.size] in [size_t]. *)
Fixpoint add_sizes (total : Z) (blocks : list NativeBlock) : Z :=
  match blocks with
  | [] => total
  | block :: rest => add_sizes (to_size_t (total + size block)) rest
  end.

Definition total_allocated_bytes : Sys Z := fun w =>
  (add_sizes 0 (g_blocks w), w).

Definition free_block (block : NativeBlock) : Sys unit :=
  if (ptr block =? nullptr) || (size block =? 0) then ret tt
  else if use_mmap block then sys_munmap (ptr block) (size block)
  else sys_free (ptr block).

(** The address the system would choose for the block of index [i]
    of one call, or any value it refuses. *)
Definition Oracle : Type := Z -> Z.

(** The body of the [for] loop of [allocateNativeBlocks] at index [i]. *)
Definition allocate_block (o : Oracle) (block_size i : Z) : Sys unit :=
  let use_mmap := Z.rem i 2 =? 0 in
  p <- (if use_mmap
        then (q <- sys_mmap (o i) block_size ;;
              ret (if q =? MAP_FAILED then nullptr else q))
        else sys_malloc (o i) block_size) ;;
  if p =? nullptr then ret tt
  else sys_memset p 90 block_size ;;;
       push_back (mkBlock p block_size use_mmap).

(** [for (int i = 0; i < block_count; ++i)]: [todo] iterations are left
    and the next index is [i].  The index stays below [block_count],
    which is a [jint], so [++i] does not overflow. *)
Fixpoint allocate_loop (o : Oracle) (block_size : Z) (todo : nat) (i : Z) : Sys unit :=
  match todo with
  | O => ret tt
  | S todo' =>
      allocate_block o block_size i ;;;
      allocate_loop o block_size todo' (i + 1)
  end.

Definition block_size_of (block_size_mb : Z) : Z :=
  to_size_t (to_size_t (to_size_t block_size_mb * 1024) * 1024).

Definition allocateNativeBlocks (o : Oracle) (block_count block_size_mb : Z) : Sys Z :=
  if (block_count <=? 0) || (block_size_mb <=? 0)
  then (t <- total_allocated_bytes ;; ret (to_jlong t))
  else
    let block_size := block_size_of block_size_mb in
    allocate_loop o block_size (Z.to_nat block_count) 0 ;;;
    t <- total_allocated_bytes ;;
    ret (to_jlong t).

Definition freeAllNativeBlocks : Sys Z :=
  before <- total_allocated_bytes ;;
  (fun w => for_each (g_blocks w) free_block w) ;;;
  clear ;;;
  ret (to_jlong before).

Definition getNativeStats : Sys string :=
  bytes <- total_allocated_bytes ;;
  let mb := div_mib (double_of_unsigned bytes) in
  count <- blocks_size ;;
  ret ("nativeBlocks=" ++ to_string_unsigned count
       ++ newline ++ "nativeBytes=" ++ to_string_unsigned bytes
       ++ newline ++ "nativeMb=" ++ to_string_double mb)%string.

End Registry.

(** ** Vocabulary of the properties *)

(** The total the registry holds, as a plain sum. *)
Definition sum_sizes (blocks : list NativeBlock) : Z :=
  fold_right (fun b acc => size b + acc) 0 blocks.

Definition held_bytes (w : World) : Z := sum_sizes (g_blocks w).

(** What an operation did: the primitive calls it issued, and the
    descriptors it appended to the vector. *)
Definition events_since (w w' : World) : list Event :=
  skipn (length (os_trace w)) (os_trace w').

Definition appended (w w' : World) : list NativeBlock :=
  skipn (length (g_blocks w)) (g_blocks w').

(** The allocation requests in a run of calls, in order: which
    primitive ([true] for [mmap], [false] for [malloc]) and what length. *)
Definition request (e : Event) : list (bool * Z) :=
  match e with
  | CallMmap len _ => [(true, len)]
  | CallMalloc len _ => [(false, len)]
  | _ => []
  end.

Definition requests (evs : list Event) : list (bool * Z) :=
  flat_map request evs.

(** The block indices [i, i + 1, ..., i + k - 1]. *)
Fixpoint indices (i : Z) (k : nat) : list Z :=
  match k with
  | O => []
  | S k' => i :: indices (i + 1) k'
  end.

Definition page_mapped_index (i : Z) : bool := Z.even i.

Definition count_origin (origin : bool) (blocks : list NativeBlock) : Z :=
  Z.of_nat (length (filter (fun b => Bool.eqb (use_mmap b) origin) blocks)).

(** The call the release path makes for one descriptor, if any. *)
Definition release_call (b : NativeBlock) : list Event :=
  if (ptr b =? nullptr) || (size b =? 0) then []
  else if use_mmap b then [CallMunmap (ptr b) (size b)]
  else [CallFree (ptr b)].

(** An allocator that places the block of index [i] at
    [base + i * step]. *)
Definition bump (base step : Z) : Oracle := fun i => base + i * step.

(** An allocator that refuses the blocks whose index satisfies [refuse]. *)
Definition refusing (refuse : Z -> bool) (o : Oracle) : Oracle :=
  fun i => if refuse i then 0 else o i.

(** An allocator that places successive blocks sixteen mebibytes
    apart, starting at the first mebibyte. *)
Definition spaced : Oracle := bump (2 ^ 20) (2 ^ 24).

(** The report of a registry that holds [count] blocks and [bytes]
    bytes, a whole number of mebibytes: three lines, each a name, an
    equals sign and a value. *)
Definition field (name value : string) : string :=
  (name ++ "=" ++ value)%string.

Definition stats_text (count bytes : Z) : string :=
  String.concat newline
    [field "nativeBlocks" (to_string_unsigned count);
     field "nativeBytes" (to_string_unsigned bytes);
     field "nativeMb" (to_string_unsigned (bytes / 2 ^ 20) ++ ".000000")%string].

Fixpoint count_char (c : ascii) (text : string) : nat :=
  match text with
  | EmptyString => 0%nat
  | String a rest => ((if Ascii.eqb a c then 1 else 0) + count_char c rest)%nat
  end.

Section Properties.

Variable abi : Abi.

(** Whether a call is an allocation that failed. *)
Definition allocation_failed (e : Event) : bool :=
  match e with
  | CallMmap _ r => r =? MAP_FAILED abi
  | CallMalloc _ r => r =? nullptr
  | _ => false
  end.

Definition no_failure (evs : list Event) : Prop :=
  forallb (fun e => negb (allocation_failed e)) evs = true.

(** The descriptor that a successful allocation call gives rise to. *)
Definition granted_block (e : Event) : list NativeBlock :=
  match e with
  | CallMmap len r => if r =? MAP_FAILED abi then [] else [mkBlock r len true]
  | CallMalloc len r => if r =? nullptr then [] else [mkBlock r len false]
  | _ => []
  end.

Definition granted_blocks (evs : list Event) : list NativeBlock :=
  flat_map granted_block evs.

(** The call that asks for the block of an index, and what each
    primitive returns when it fails. *)
Definition allocation_event (page_mapped : bool) (len r : Z) : Event :=
  if page_mapped then CallMmap len r else CallMalloc len r.

Definition failure_value (page_mapped : bool) : Z :=
  if page_mapped then MAP_FAILED abi else nullptr.

(** The states the registry can be in: those the three operations
    produce from the empty registry of a fresh process, whatever the
    arguments and whatever the allocator answers. *)
Inductive reachable : World -> Prop :=
| reach_init : reachable initial_world
| reach_allocate w o n s :
    reachable w -> is_jint n -> is_jint s ->
    reachable (run (allocateNativeBlocks abi o n s) w)
| reach_free w :
    reachable w -> reachable (run (freeAllNativeBlocks abi) w)
| reach_stats w :
    reachable w -> reachable (run (getNativeStats abi) w).

(** What every reachable state satisfies: addresses in the vector are
    not null, sizes are multiples of one mebibyte in the range of
    [size_t], and the vector holds no more than the system handed out. *)
Record consistent (w : World) : Prop := {
  blocks_ok : Forall (fun b => ptr b <> nullptr /\ 0 <= size b /\ size b mod 2 ^ 20 = 0) (g_blocks w);
  live_ok : Forall (fun e => 0 <= snd e) (os_live w);
  held_le_mapped : held_bytes w <= mapped_bytes (os_live w);
  mapped_le_space : mapped_bytes (os_live w) <= user_space_bytes abi
}.

End Properties.

(** ** Concrete runs *)

(** An allocator for a second call, clear of the addresses of [spaced]. *)
Definition spaced_high : Oracle := bump (2 ^ 30) (2 ^ 24).

(** The registry of a 64-bit process after allocate(2, 1). *)
Definition two_blocks : World :=
  run (allocateNativeBlocks LP64 spaced 2 1) initial_world.

(** An allocator under which the request of index 1 fails. *)
Definition second_fails : Oracle := refusing (fun i => i =? 1) spaced.

(** An allocator under which the page-mapping requests fail, as they do
    when the length asked for is zero. *)
Definition heap_only : Oracle := refusing Z.even spaced.

(** ** Vocabulary of the further properties *)

(** The region of a descriptor, as the system lists it. *)
Definition region (b : NativeBlock) : Z * Z := (ptr b, size b).

(** The call that fills the region of a descriptor. *)
Definition fill_call (b : NativeBlock) : Event := CallMemset (ptr b) 90 (size b).

Definition is_memset (e : Event) : bool :=
  match e with CallMemset _ _ _ => true | _ => false end.

Definition is_release (e : Event) : bool :=
  match e with CallMunmap _ _ | CallFree _ => true | _ => false end.

(** Whether a release call gives back an address through the primitive
    that handed it out earlier in [history]. *)
Definition matches_origin (history : list Event) (e : Event) : Prop :=
  match e with
  | CallMunmap p len => In (CallMmap len p) history
  | CallFree p => exists len, In (CallMalloc len p) history
  | _ => False
  end.

(** What ties the system's list to the vector: the regions of the
    descriptors, latest first, on top of regions of length zero that
    earlier releases skipped; no address is listed twice. *)
Definition owned (w : World) : Prop :=
  NoDup (map fst (os_live w)) /\
  exists leaked,
    os_live w = rev (map region (g_blocks w)) ++ leaked /\
    Forall (fun e => snd e = 0) leaked.

(** ** Machine arithmetic *)

Section Arithmetic.

Variable abi : Abi.

Lemma size_modulus_eq : size_modulus abi = 2 ^ 20 * 2 ^ (size_bits abi - 20).
Proof. unfold size_modulus; destruct abi; reflexivity. Qed.

Lemma size_modulus_pos : 0 < size_modulus abi.
Proof. unfold size_modulus; destruct abi; reflexivity. Qed.

Lemma user_space_lt_modulus : user_space_bytes abi < size_modulus abi.
Proof. unfold size_modulus; destruct abi; reflexivity. Qed.

Lemma user_space_lt_jlong : user_space_bytes abi < 2 ^ 63.
Proof. destruct abi; reflexivity. Qed.

Lemma to_jlong_exact z : 0 <= z < 2 ^ 63 -> to_jlong z = z.
Proof.
  intros Hz. unfold to_jlong.
  rewrite Z.mod_small by lia. lia.
Qed.

Lemma to_size_t_exact z : 0 <= z < size_modulus abi -> to_size_t abi z = z.
Proof. intros Hz. unfold to_size_t. now apply Z.mod_small. Qed.

Lemma to_size_t_range z : 0 <= to_size_t abi z < size_modulus abi.
Proof. unfold to_size_t. apply Z.mod_pos_bound, size_modulus_pos. Qed.

(** The two multiplications of [block_size_of] reduce once. *)
Lemma block_size_of_mod s :
  block_size_of abi s = (s * 2 ^ 20) mod size_modulus abi.
Proof.
  pose proof size_modulus_pos as Hm.
  unfold block_size_of, to_size_t.
  rewrite Z.mul_mod_idemp_l by lia.
  rewrite <- Z.mul_assoc, Z.mul_mod_idemp_l by lia.
  reflexivity.
Qed.

Lemma block_size_of_range s : 0 <= block_size_of abi s < size_modulus abi.
Proof. unfold block_size_of. apply to_size_t_range. Qed.

Lemma block_size_of_mib s : block_size_of abi s mod 2 ^ 20 = 0.
Proof.
  rewrite block_size_of_mod, Z.mod_mod_divide.
  - apply Z.mod_mul. lia.
  - exists (2 ^ (size_bits abi - 20)). rewrite size_modulus_eq. lia.
Qed.

Lemma block_size_of_exact s :
  0 <= s -> s * 1024 * 1024 < size_modulus abi ->
  block_size_of abi s = s * 1024 * 1024.
Proof.
  intros Hs Hfit. rewrite block_size_of_mod.
  rewrite Z.mod_small; lia.
Qed.

Lemma rem2_even i : (Z.rem i 2 =? 0) = Z.even i.
Proof.
  rewrite Zeven_mod.
  destruct (Z.eqb_spec (Z.rem i 2) 0) as [Hr | Hr];
    destruct (Z.eqb_spec (i mod 2) 0) as [Hm | Hm]; try reflexivity;
    pose proof (Z.rem_mod_eq_0 i 2 ltac:(lia)) as [H1 H2]; tauto.
Qed.

(** [total_allocated_bytes] depends on the sizes alone. *)
Lemma add_sizes_same_sizes l1 : forall l2 t,
  map size l1 = map size l2 -> add_sizes abi t l1 = add_sizes abi t l2.
Proof.
  induction l1 as [| b l1 IH]; intros [| c l2] t Heq; simpl in *;
    try discriminate; [reflexivity |].
  injection Heq as Hs Hrest. rewrite Hs. now apply IH.
Qed.

(** Without overflow the loop computes the plain sum. *)
Lemma add_sizes_exact l : forall t,
  0 <= t ->
  Forall (fun b => 0 <= size b) l ->
  t + sum_sizes l < size_modulus abi ->
  add_sizes abi t l = t + sum_sizes l.
Proof.
  induction l as [| b l IH]; intros t Ht Hl Hfit; simpl in *; [lia |].
  inversion Hl as [| ? ? Hb Hl']; subst.
  assert (Hsum : 0 <= sum_sizes l).
  { clear - Hl'. induction Hl'; simpl; lia. }
  rewrite to_size_t_exact by lia.
  rewrite IH by (auto; lia). lia.
Qed.

End Arithmetic.

(** ** One block, then the loop *)

Section Allocation.

Variable abi : Abi.

Lemma sum_sizes_app l1 l2 : sum_sizes (l1 ++ l2) = sum_sizes l1 + sum_sizes l2.
Proof. induction l1 as [| b l1 IH]; simpl; [reflexivity | rewrite IH; lia]. Qed.

Lemma sum_sizes_nonneg l :
  Forall (fun b => 0 <= size b) l -> 0 <= sum_sizes l.
Proof. induction 1; simpl; lia. Qed.

Lemma mapped_bytes_nonneg live :
  Forall (fun e => 0 <= snd e) live -> 0 <= mapped_bytes live.
Proof. induction 1; simpl; lia. Qed.

Lemma skipn_exact {A : Type} (l l' : list A) : skipn (length l) (l ++ l') = l'.
Proof. induction l; simpl; auto. Qed.

Lemma os_grants_address w p len :
  os_grants abi w p len = true ->
  (p =? MAP_FAILED abi) = false /\ (p =? nullptr) = false /\
  mapped_bytes (os_live w) + len <= user_space_bytes abi.
Proof.
  unfold os_grants, nullptr. intros H.
  apply andb_prop in H as [H Hfit].
  apply andb_prop in H as [H _].
  apply andb_prop in H as [Hpos Hlt].
  apply Z.ltb_lt in Hpos, Hlt. apply Z.leb_le in Hfit.
  repeat split; try (apply Z.eqb_neq; lia); assumption.
Qed.

(** The loop body in one equation: a granted request appends one
    descriptor after filling the region, a refused one only shows in
    the trace. *)
Lemma allocate_block_run o block_size i w :
  allocate_block abi o block_size i w =
  (tt,
   if os_grants abi w (o i) block_size
   then mkWorld (g_blocks w ++ [mkBlock (o i) block_size (Z.even i)])
                ((o i, block_size) :: os_live w)
                (os_trace w ++ [allocation_event (Z.even i) block_size (o i);
                                CallMemset (o i) 90 block_size])
   else mkWorld (g_blocks w) (os_live w)
                (os_trace w ++ [allocation_event (Z.even i) block_size
                                  (failure_value abi (Z.even i))])).
Proof.
  unfold allocate_block. rewrite rem2_even.
  destruct (os_grants abi w (o i) block_size) eqn:G.
  - destruct (os_grants_address _ _ _ G) as (Hf & Hn & _).
    destruct (Z.even i); unfold bind, sys_mmap, sys_malloc, os_allocate, ret;
      rewrite G; simpl; rewrite ?Hf, Hn; simpl;
      unfold sys_memset, push_back; simpl; rewrite <- app_assoc; reflexivity.
  - destruct (Z.even i); unfold bind, sys_mmap, sys_malloc, os_allocate, ret;
      rewrite G; simpl; rewrite ?Z.eqb_refl; reflexivity.
Qed.

Lemma allocate_block_world o block_size i w :
  run (allocate_block abi o block_size i) w =
  if os_grants abi w (o i) block_size
  then mkWorld (g_blocks w ++ [mkBlock (o i) block_size (Z.even i)])
               ((o i, block_size) :: os_live w)
               (os_trace w ++ [allocation_event (Z.even i) block_size (o i);
                               CallMemset (o i) 90 block_size])
  else mkWorld (g_blocks w) (os_live w)
               (os_trace w ++ [allocation_event (Z.even i) block_size
                                 (failure_value abi (Z.even i))]).
Proof. unfold run. rewrite allocate_block_run. reflexivity. Qed.

Lemma allocate_loop_step o block_size k i w :
  run (allocate_loop abi o block_size (S k) i) w =
  run (allocate_loop abi o block_size k (i + 1))
      (run (allocate_block abi o block_size i) w).
Proof.
  unfold run. simpl. unfold bind.
  destruct (allocate_block abi o block_size i w). reflexivity.
Qed.

(** What one call of the loop leaves behind: one request per index, in
    index order and of the kind the index decides; the descriptors of
    the requests that were granted, in the same order; nothing else in
    the vector. *)
Lemma allocate_loop_spec o block_size : forall k i w,
  exists evs,
    os_trace (run (allocate_loop abi o block_size k i) w) = os_trace w ++ evs /\
    requests evs = map (fun j => (Z.even j, block_size)) (indices i k) /\
    g_blocks (run (allocate_loop abi o block_size k i) w)
      = g_blocks w ++ granted_blocks abi evs.
Proof.
  induction k as [| k IH]; intros i w.
  - exists []. unfold run; simpl. rewrite !app_nil_r. auto.
  - rewrite allocate_loop_step.
    destruct (IH (i + 1) (run (allocate_block abi o block_size i) w))
      as (evs & Htr & Hreq & Hblk).
    rewrite Htr, Hblk, allocate_block_world.
    destruct (os_grants abi w (o i) block_size) eqn:G; simpl.
    + destruct (os_grants_address _ _ _ G) as (Hf & Hn & _).
      exists ([allocation_event (Z.even i) block_size (o i);
               CallMemset (o i) 90 block_size] ++ evs).
      rewrite <- !app_assoc. split; [reflexivity |].
      unfold requests, granted_blocks in *. rewrite !flat_map_app, Hreq.
      split.
      * destruct (Z.even i); reflexivity.
      * destruct (Z.even i); simpl; rewrite ?Hf, ?Hn; reflexivity.
    + exists ([allocation_event (Z.even i) block_size
                 (failure_value abi (Z.even i))] ++ evs).
      rewrite <- !app_assoc. split; [reflexivity |].
      unfold requests, granted_blocks in *. rewrite !flat_map_app, Hreq.
      split.
      * destruct (Z.even i); reflexivity.
      * destruct (Z.even i); simpl; rewrite ?Z.eqb_refl; reflexivity.
Qed.

(** When no allocation failed, requests and descriptors correspond
    one to one. *)
Lemma granted_blocks_requests evs :
  no_failure abi evs ->
  map (fun b => (use_mmap b, size b)) (granted_blocks abi evs) = requests evs.
Proof.
  unfold no_failure, granted_blocks, requests.
  induction evs as [| e evs IH]; simpl; intros H; [reflexivity |].
  apply andb_prop in H as [He Hrest].
  rewrite map_app, IH by assumption. f_equal.
  destruct e; simpl in *; try reflexivity;
    apply negb_true_iff in He; rewrite He; reflexivity.
Qed.

(** In general each failed allocation is one descriptor less. *)
Lemma granted_blocks_length evs :
  (length (granted_blocks abi evs)
   + length (filter (allocation_failed abi) evs) = length (requests evs))%nat.
Proof.
  unfold granted_blocks, requests.
  induction evs as [| e evs IH]; simpl; [reflexivity |].
  rewrite !length_app.
  destruct e; simpl in *; try lia;
    match goal with |- context [?a =? ?b] => destruct (a =? b) end; simpl; lia.
Qed.

Lemma indices_length k : forall i, length (indices i k) = k.
Proof. induction k; simpl; intros; [reflexivity | now rewrite IHk]. Qed.

(** *** The invariant *)

Lemma allocate_block_consistent o block_size i w :
  0 <= block_size -> block_size mod 2 ^ 20 = 0 ->
  consistent abi w ->
  consistent abi (run (allocate_block abi o block_size i) w).
Proof.
  intros Hpos Hmib [Hb Hl Hh Hm].
  rewrite allocate_block_world.
  destruct (os_grants abi w (o i) block_size) eqn:G.
  - destruct (os_grants_address _ _ _ G) as (_ & Hn & Hfit).
    constructor; simpl.
    + apply Forall_app; split; [assumption |].
      constructor; [| constructor]. simpl.
      split; [now apply Z.eqb_neq | auto].
    + constructor; [simpl; lia | assumption].
    + unfold held_bytes in *; simpl. rewrite sum_sizes_app; simpl. lia.
    + lia.
  - constructor; assumption.
Qed.

Lemma allocate_loop_consistent o block_size :
  0 <= block_size -> block_size mod 2 ^ 20 = 0 ->
  forall k i w,
    consistent abi w ->
    consistent abi (run (allocate_loop abi o block_size k i) w).
Proof.
  intros Hpos Hmib. induction k as [| k IH]; intros i w Hw.
  - exact Hw.
  - rewrite allocate_loop_step. apply IH.
    now apply allocate_block_consistent.
Qed.

End Allocation.

(** ** The three operations *)

Section Operations.

Variable abi : Abi.

Lemma allocate_invalid o n s w :
  n <= 0 \/ s <= 0 ->
  allocateNativeBlocks abi o n s w = (to_jlong (add_sizes abi 0 (g_blocks w)), w).
Proof.
  intros H. unfold allocateNativeBlocks.
  replace ((n <=? 0) || (s <=? 0)) with true; [reflexivity |].
  symmetry. apply orb_true_iff.
  destruct H; [left | right]; now apply Z.leb_le.
Qed.

Lemma allocate_valid o n s w :
  0 < n -> 0 < s ->
  let w' := run (allocate_loop abi o (block_size_of abi s) (Z.to_nat n) 0) w in
  allocateNativeBlocks abi o n s w = (to_jlong (add_sizes abi 0 (g_blocks w')), w').
Proof.
  intros Hn Hs. unfold allocateNativeBlocks.
  replace ((n <=? 0) || (s <=? 0)) with false.
  - unfold run, bind, total_allocated_bytes, ret.
    destruct (allocate_loop abi o (block_size_of abi s) (Z.to_nat n) 0 w).
    reflexivity.
  - symmetry. apply orb_false_iff. split; apply Z.leb_gt; lia.
Qed.

Lemma drop_region_nonneg keep live :
  Forall (fun e => 0 <= snd e) live ->
  Forall (fun e => 0 <= snd e) (drop_region keep live)
  /\ mapped_bytes (drop_region keep live) <= mapped_bytes live.
Proof.
  induction 1 as [| e live He Hl [IH1 IH2]]; simpl.
  - split; [constructor | lia].
  - destruct (keep e); simpl.
    + split; [constructor; assumption | lia].
    + split; [assumption | lia].
Qed.

(** [free_block] in one equation. *)
Lemma free_block_run block w :
  free_block block w =
  (tt,
   if (ptr block =? nullptr) || (size block =? 0) then w
   else if use_mmap block
   then mkWorld (g_blocks w)
          (drop_region (fun e => negb ((fst e =? ptr block) && (snd e =? size block)))
                       (os_live w))
          (os_trace w ++ [CallMunmap (ptr block) (size block)])
   else mkWorld (g_blocks w)
          (drop_region (fun e => negb (fst e =? ptr block)) (os_live w))
          (os_trace w ++ [CallFree (ptr block)])).
Proof.
  unfold free_block.
  destruct ((ptr block =? nullptr) || (size block =? 0)); [reflexivity |].
  destruct (use_mmap block); reflexivity.
Qed.

Lemma free_block_spec b w :
  let w' := run (free_block b) w in
  g_blocks w' = g_blocks w /\
  os_trace w' = os_trace w ++ release_call b /\
  (Forall (fun e => 0 <= snd e) (os_live w) ->
   Forall (fun e => 0 <= snd e) (os_live w') /\
   mapped_bytes (os_live w') <= mapped_bytes (os_live w)).
Proof.
  unfold run. rewrite free_block_run. unfold release_call. simpl.
  destruct ((ptr b =? nullptr) || (size b =? 0)).
  - rewrite app_nil_r. repeat split; auto; lia.
  - destruct (use_mmap b); simpl; repeat split; auto;
      now apply drop_region_nonneg.
Qed.

Lemma for_each_step {A : Type} (x : A) rest body w :
  run (for_each (x :: rest) body) w = run (for_each rest body) (run (body x) w).
Proof. unfold run; simpl; unfold bind. destruct (body x w). reflexivity. Qed.

(** The release loop leaves the vector alone, makes the calls of
    [release_call] in the order of the vector, and only takes regions
    away from the system's list. *)
Lemma release_loop_spec blocks : forall w,
  let w' := run (for_each blocks free_block) w in
  g_blocks w' = g_blocks w /\
  os_trace w' = os_trace w ++ flat_map release_call blocks /\
  (Forall (fun e => 0 <= snd e) (os_live w) ->
   Forall (fun e => 0 <= snd e) (os_live w') /\
   mapped_bytes (os_live w') <= mapped_bytes (os_live w)).
Proof.
  induction blocks as [| b blocks IH]; intros w.
  - unfold run; simpl. rewrite app_nil_r. repeat split; auto; lia.
  - cbv zeta. rewrite for_each_step.
    destruct (free_block_spec b w) as (Hg1 & Ht1 & Hl1).
    destruct (IH (run (free_block b) w)) as (Hg & Ht & Hl).
    rewrite Hg, Ht, Hg1, Ht1. simpl. rewrite <- app_assoc.
    split; [reflexivity | split; [reflexivity |]]. intros Hw.
    destruct (Hl1 Hw) as [H1 H2]. destruct (Hl H1) as [H3 H4].
    split; [assumption | lia].
Qed.

Lemma free_all_run w :
  let w1 := run (for_each (g_blocks w) (free_block)) w in
  freeAllNativeBlocks abi w =
  (to_jlong (add_sizes abi 0 (g_blocks w)),
   mkWorld [] (os_live w1) (os_trace w ++ flat_map release_call (g_blocks w))).
Proof.
  destruct (release_loop_spec (g_blocks w) w) as (_ & Ht & _).
  unfold freeAllNativeBlocks, bind, total_allocated_bytes, clear, ret, run in *.
  destruct (for_each (g_blocks w) (free_block) w) as [u w1]; simpl in *.
  rewrite Ht. reflexivity.
Qed.

Lemma stats_run w :
  getNativeStats abi w =
  (("nativeBlocks=" ++ to_string_unsigned (Z.of_nat (length (g_blocks w)))
    ++ newline ++ "nativeBytes=" ++ to_string_unsigned (add_sizes abi 0 (g_blocks w))
    ++ newline ++ "nativeMb="
    ++ to_string_double (div_mib (double_of_unsigned (add_sizes abi 0 (g_blocks w)))))%string,
   w).
Proof. reflexivity. Qed.

(** *** Every reachable state is consistent *)

Lemma initial_consistent : consistent abi initial_world.
Proof.
  constructor; simpl; try constructor; unfold held_bytes; simpl; try lia.
  destruct abi; discriminate.
Qed.

Lemma allocate_consistent o n s w :
  consistent abi w -> consistent abi (run (allocateNativeBlocks abi o n s) w).
Proof.
  intros Hw.
  destruct (Z_le_gt_dec n 0) as [Hn | Hn]; [| destruct (Z_le_gt_dec s 0) as [Hs | Hs]].
  - unfold run. rewrite allocate_invalid by auto. exact Hw.
  - unfold run. rewrite allocate_invalid by auto. exact Hw.
  - unfold run at 1. rewrite allocate_valid by lia. simpl.
    apply allocate_loop_consistent; auto.
    + apply block_size_of_range.
    + apply block_size_of_mib.
Qed.

Lemma free_all_consistent w :
  consistent abi w -> consistent abi (run (freeAllNativeBlocks abi) w).
Proof.
  intros [Hb Hl Hh Hm].
  unfold run at 1. rewrite free_all_run. simpl.
  destruct (release_loop_spec (g_blocks w) w) as (_ & _ & H).
  destruct (H Hl) as [H1 H2].
  constructor; simpl; auto.
  - unfold held_bytes; simpl. now apply mapped_bytes_nonneg.
  - lia.
Qed.

Lemma reachable_consistent w : reachable abi w -> consistent abi w.
Proof.
  induction 1.
  - apply initial_consistent.
  - now apply allocate_consistent.
  - now apply free_all_consistent.
  - assumption.
Qed.

(** In a consistent state nothing overflows: the [size_t] total is the
    plain sum, and it survives the conversion to [jlong]. *)
Lemma consistent_total w :
  consistent abi w ->
  add_sizes abi 0 (g_blocks w) = held_bytes w /\
  to_jlong (held_bytes w) = held_bytes w /\
  0 <= held_bytes w <= user_space_bytes abi /\
  held_bytes w mod 2 ^ 20 = 0.
Proof.
  intros [Hb Hl Hh Hm].
  pose proof (user_space_lt_modulus abi). pose proof (user_space_lt_jlong abi).
  assert (Hsz : Forall (fun b => 0 <= size b) (g_blocks w)).
  { eapply Forall_impl; [| exact Hb]. simpl; tauto. }
  pose proof (sum_sizes_nonneg _ Hsz) as Hnn.
  unfold held_bytes in *.
  repeat split; try lia.
  - rewrite add_sizes_exact; auto; lia.
  - apply to_jlong_exact. lia.
  - clear - Hb. induction Hb as [| b l (_ & _ & Hb) _ IH]; [reflexivity |].
    change (sum_sizes (b :: l)) with (size b + sum_sizes l).
    rewrite Z.add_mod, Hb, IH by lia. reflexivity.
Qed.

End Operations.

(** ** The megabyte field *)

Section Rendering.

Lemma round_half_even_exact num den :
  0 < den -> num mod den = 0 -> round_half_even num den = num / den.
Proof.
  intros Hden Hmod. unfold round_half_even. rewrite Hmod.
  replace (2 * 0 <? den) with true; [reflexivity |].
  symmetry. apply Z.ltb_lt. lia.
Qed.

(** A whole number of mebibytes below [2 ^ 63] needs at most 43
    significant bits: the conversion to [double] is exact. *)
Lemma double_of_mebibytes k :
  0 <= k -> 2 ^ 20 * k < 2 ^ 63 ->
  double_of_unsigned (2 ^ 20 * k) = mkDouble (2 ^ 20 * k) 0.
Proof.
  intros Hk Hlt. unfold double_of_unsigned.
  destruct (Z.leb_spec (Z.log2 (2 ^ 20 * k) - 52) 0) as [Hd | Hd]; [reflexivity |].
  set (drop := Z.log2 (2 ^ 20 * k) - 52) in *.
  assert (Hpos : 0 < 2 ^ 20 * k).
  { destruct (Z.eq_dec k 0) as [-> | Hne]; [| lia].
    simpl in drop. unfold drop in Hd. simpl in Hd. lia. }
  assert (Hlog : Z.log2 (2 ^ 20 * k) < 63) by (apply Z.log2_lt_pow2; lia).
  assert (Hdrop : 0 < drop <= 10) by (unfold drop; lia).
  assert (Hpow : 0 < 2 ^ drop) by (apply Z.pow_pos_nonneg; lia).
  assert (Hsplit : 2 ^ 20 * k = 2 ^ (20 - drop) * k * 2 ^ drop).
  { replace (2 ^ 20) with (2 ^ (20 - drop) * 2 ^ drop).
    - ring.
    - rewrite <- Z.pow_add_r by lia. f_equal. lia. }
  rewrite round_half_even_exact.
  - f_equal. rewrite Hsplit at 1. rewrite Z.div_mul by lia. lia.
  - assumption.
  - rewrite Hsplit. apply Z.mod_mul. lia.
Qed.

(** Such a total prints as a whole number followed by six zeros. *)
Lemma mebibytes_field k :
  0 <= k -> 2 ^ 20 * k < 2 ^ 63 ->
  to_string_double (div_mib (double_of_unsigned (2 ^ 20 * k)))
  = (to_string_unsigned k ++ ".000000")%string.
Proof.
  intros Hk Hlt. rewrite double_of_mebibytes by assumption.
  unfold to_string_double, div_mib. cbn [mant scale].
  change (0 + 20) with 20.
  replace (2 ^ 20 * k * 10 ^ 6) with (k * 10 ^ 6 * 2 ^ 20) by ring.
  rewrite round_half_even_exact
    by (try apply Z.mod_mul; lia).
  rewrite Z.div_mul by lia.
  rewrite Z.div_mul, Z.mod_mul by lia.
  reflexivity.
Qed.

End Rendering.

(** ** Derived descriptions of a call *)

Section Calls.

Variable abi : Abi.

(** Everything one valid call of [allocateNativeBlocks] does. *)
Lemma allocate_spec o n s w :
  0 < n -> 0 < s ->
  let w' := run (allocateNativeBlocks abi o n s) w in
  let evs := events_since w w' in
  os_trace w' = os_trace w ++ evs /\
  requests evs
    = map (fun j => (Z.even j, block_size_of abi s)) (indices 0 (Z.to_nat n)) /\
  g_blocks w' = g_blocks w ++ granted_blocks abi evs /\
  appended w w' = granted_blocks abi evs /\
  result (allocateNativeBlocks abi o n s) w
    = to_jlong (add_sizes abi 0 (g_blocks w')).
Proof.
  intros Hn Hs. cbv zeta.
  assert (Hrun : run (allocateNativeBlocks abi o n s) w
                 = run (allocate_loop abi o (block_size_of abi s) (Z.to_nat n) 0) w).
  { unfold run at 1. now rewrite allocate_valid. }
  unfold result. rewrite allocate_valid by assumption. simpl fst.
  rewrite Hrun. unfold events_since, appended.
  destruct (allocate_loop_spec abi o (block_size_of abi s) (Z.to_nat n) 0 w)
    as (evs & Htr & Hreq & Hblk).
  rewrite Htr, Hblk, !skipn_exact. auto.
Qed.

(** With every request granted, the call appends one descriptor per
    index, of the computed size and of the origin of its index. *)
Lemma allocate_all_granted o n s w :
  0 < n -> 0 < s ->
  let w' := run (allocateNativeBlocks abi o n s) w in
  no_failure abi (events_since w w') ->
  g_blocks w' = g_blocks w ++ appended w w' /\
  map (fun b => (use_mmap b, size b)) (appended w w')
    = map (fun j => (Z.even j, block_size_of abi s)) (indices 0 (Z.to_nat n)).
Proof.
  intros Hn Hs w' Hok.
  destruct (allocate_spec o n s w Hn Hs) as (_ & Hreq & Hblk & Happ & _).
  fold w' in Hreq, Hblk, Happ.
  rewrite Happ. split; [assumption |].
  rewrite granted_blocks_requests by assumption. assumption.
Qed.

Lemma sizes_of_uniform {A : Type} (origin : A -> bool) len (idx : list A) :
  forall blocks,
    map (fun b => (use_mmap b, size b)) blocks = map (fun j => (origin j, len)) idx ->
    map size blocks = repeat len (length idx) /\
    map use_mmap blocks = map origin idx.
Proof.
  induction idx as [| j idx IH]; intros [| b blocks] H; simpl in *;
    try discriminate; [auto |].
  injection H as Hu Hs Hrest. destruct (IH _ Hrest) as [H1 H2].
  rewrite Hu, Hs, H1, H2. auto.
Qed.

Lemma sum_sizes_uniform len : forall blocks k,
  map size blocks = repeat len k -> sum_sizes blocks = Z.of_nat k * len.
Proof.
  induction blocks as [| b blocks IH]; intros [| k] H;
    try discriminate; [reflexivity |].
  injection H as Hs Hrest.
  change (sum_sizes (b :: blocks)) with (size b + sum_sizes blocks).
  rewrite (IH _ Hrest), Hs, Nat2Z.inj_succ. lia.
Qed.

End Calls.

(** ** The report *)

Section Report.

Variable abi : Abi.

Lemma string_app_assoc (s1 s2 s3 : string) :
  ((s1 ++ s2) ++ s3 = s1 ++ (s2 ++ s3))%string.
Proof. induction s1 as [| a s1 IH]; simpl; [reflexivity | now rewrite IH]. Qed.

Lemma stats_consistent w :
  consistent abi w ->
  getNativeStats abi w
  = (stats_text (Z.of_nat (length (g_blocks w))) (held_bytes w), w).
Proof.
  intros Hw. rewrite stats_run.
  destruct (consistent_total abi w Hw) as (Htot & _ & Hrange & Hmib).
  pose proof (user_space_lt_jlong abi) as Hjl.
  rewrite Htot.
  assert (Hk : held_bytes w = 2 ^ 20 * (held_bytes w / 2 ^ 20)).
  { apply Z_div_exact_full_2; [lia | assumption]. }
  rewrite Hk at 2.
  rewrite mebibytes_field.
  - unfold stats_text, field. cbn [String.concat].
    rewrite !string_app_assoc. reflexivity.
  - apply Z.div_pos; lia.
  - rewrite <- Hk. lia.
Qed.

Lemma count_char_app c s1 s2 :
  count_char c (s1 ++ s2) = (count_char c s1 + count_char c s2)%nat.
Proof. induction s1 as [| a s1 IH]; simpl; [reflexivity | rewrite IH; lia]. Qed.

(** Decimal digits contain neither a newline nor an equals sign. *)
Lemma count_char_digits c z :
  c = ascii_of_nat 10 \/ c = "="%char ->
  count_char c (to_string_unsigned z) = 0%nat.
Proof.
  intros Hc. unfold to_string_unsigned.
  assert (H : forall d, count_char c (NilEmpty.string_of_uint d) = 0%nat).
  { induction d; simpl; rewrite ?IHd; destruct Hc as [-> | ->]; reflexivity. }
  unfold NilZero.string_of_uint.
  destruct (N.to_uint (Z.to_N z)); try apply H.
  destruct Hc as [-> | ->]; reflexivity.
Qed.

(** The report has three lines and three equals signs. *)
Lemma stats_text_shape count bytes :
  count_char (ascii_of_nat 10) (stats_text count bytes) = 2%nat /\
  count_char "="%char (stats_text count bytes) = 3%nat.
Proof.
  unfold stats_text, field. cbn [String.concat].
  rewrite !count_char_app.
  rewrite !(count_char_digits (ascii_of_nat 10)) by auto.
  rewrite !(count_char_digits "="%char) by auto.
  split; reflexivity.
Qed.

End Report.

(** ** A call whose requests are all granted *)

Section Granted.

Variable abi : Abi.

Lemma allocate_granted_blocks o n s w :
  0 < n -> 0 < s ->
  let w' := run (allocateNativeBlocks abi o n s) w in
  no_failure abi (events_since w w') ->
  g_blocks w' = g_blocks w ++ appended w w' /\
  length (appended w w') = Z.to_nat n /\
  map size (appended w w') = repeat (block_size_of abi s) (Z.to_nat n) /\
  map use_mmap (appended w w') = map Z.even (indices 0 (Z.to_nat n)).
Proof.
  intros Hn Hs w' Hok.
  destruct (allocate_all_granted abi o n s w Hn Hs Hok) as [Hblk Hmap].
  fold w' in Hblk, Hmap.
  destruct (sizes_of_uniform _ _ _ _ Hmap) as [Hsz Huse].
  rewrite indices_length in Hsz.
  repeat split; try assumption.
  rewrite <- (length_map size), Hsz. apply repeat_length.
Qed.

Lemma allocate_result_consistent o n s w :
  consistent abi w ->
  result (allocateNativeBlocks abi o n s) w
  = held_bytes (run (allocateNativeBlocks abi o n s) w).
Proof.
  intros Hw.
  pose proof (allocate_consistent abi o n s w Hw) as Hw'.
  destruct (consistent_total abi _ Hw') as (Htot & Hjl & _).
  destruct (Z_le_gt_dec n 0) as [Hn | Hn]; [| destruct (Z_le_gt_dec s 0) as [Hs | Hs]].
  - unfold result, run in *. rewrite allocate_invalid in * by auto. simpl in *.
    now rewrite Htot.
  - unfold result, run in *. rewrite allocate_invalid in * by auto. simpl in *.
    now rewrite Htot.
  - destruct (allocate_spec abi o n s w ltac:(lia) ltac:(lia)) as (_ & _ & _ & _ & Hres).
    rewrite Hres, Htot. exact Hjl.
Qed.

Lemma allocate_granted_total o n s w :
  0 < n -> 0 < s ->
  let w' := run (allocateNativeBlocks abi o n s) w in
  no_failure abi (events_since w w') ->
  held_bytes w' = held_bytes w + n * block_size_of abi s.
Proof.
  intros Hn Hs w' Hok.
  destruct (allocate_granted_blocks o n s w Hn Hs Hok) as (Hblk & _ & Hsz & _).
  fold w' in Hblk, Hsz.
  unfold held_bytes. rewrite Hblk, sum_sizes_app.
  rewrite (sum_sizes_uniform _ _ _ Hsz), Z2Nat.id by lia. reflexivity.
Qed.

(** Two calls in a row append what each of them appends. *)
Lemma appended_twice w w1 w2 :
  g_blocks w1 = g_blocks w ++ appended w w1 ->
  g_blocks w2 = g_blocks w1 ++ appended w1 w2 ->
  appended w w2 = appended w w1 ++ appended w1 w2.
Proof.
  intros H1 H2. unfold appended at 1.
  rewrite H2, H1, <- app_assoc. apply skipn_exact.
Qed.

Lemma nth_error_indices k : forall i j,
  (j < k)%nat -> nth_error (indices i k) j = Some (i + Z.of_nat j).
Proof.
  induction k as [| k IH]; intros i j Hj; [lia |].
  destruct j as [| j]; simpl.
  - f_equal. lia.
  - rewrite IH by lia. f_equal. lia.
Qed.

(** Among the descriptors of an even number of consecutive indices,
    half carry each origin. *)
Lemma count_alternating origin m : forall i blocks,
  map use_mmap blocks = map Z.even (indices i (2 * m)) ->
  length (filter (fun b => Bool.eqb (use_mmap b) origin) blocks) = m.
Proof.
  induction m as [| m IH]; intros i blocks H.
  - destruct blocks; [reflexivity | discriminate].
  - replace (2 * S m)%nat with (S (S (2 * m))) in H by lia.
    destruct blocks as [| b1 [| b2 blocks]]; try discriminate.
    simpl in H. injection H as H1 H2 Hrest.
    apply IH in Hrest.
    replace (i + 1) with (Z.succ i) in H2 by lia.
    rewrite Z.even_succ, <- Z.negb_even in H2.
    simpl. rewrite H1, H2.
    destruct (Z.even i), origin; simpl; rewrite Hrest; reflexivity.
Qed.

End Granted.

(** ** Validity of the descriptors *)

Section Validity.

Lemma granted_blocks_sizes abi evs b :
  In b (granted_blocks abi evs) -> In (use_mmap b, size b) (requests evs).
Proof.
  unfold granted_blocks, requests. intros H.
  apply in_flat_map in H as (e & He & Hb). apply in_flat_map.
  exists e. split; [assumption |].
  destruct e; simpl in *; try contradiction;
    match type of Hb with context [?a =? ?c] => destruct (a =? c) end;
    simpl in Hb; try contradiction; destruct Hb as [<- | []]; simpl; auto.
Qed.

(** Every descriptor a call appends has the size the call computed. *)
Lemma appended_sizes abi o n s w b :
  0 < n -> 0 < s ->
  In b (appended w (run (allocateNativeBlocks abi o n s) w)) ->
  size b = block_size_of abi s.
Proof.
  intros Hn Hs Hb.
  destruct (allocate_spec abi o n s w Hn Hs) as (_ & Hreq & _ & Happ & _).
  rewrite Happ in Hb. apply granted_blocks_sizes in Hb.
  rewrite Hreq in Hb. apply in_map_iff in Hb as (j & Hj & _).
  now injection Hj.
Qed.

(** With a 64-bit [size_t] the block size of a [jint] never wraps. *)
Lemma lp64_block_size_fits s :
  is_jint s -> s * 1024 * 1024 < 2 ^ size_bits LP64.
Proof. unfold is_jint, jint_max. simpl. lia. Qed.

(** Hence every descriptor of the registry of a 64-bit process has a
    non-null address and a positive size. *)
Lemma lp64_blocks_valid w :
  reachable LP64 w ->
  Forall (fun b => ptr b <> nullptr /\ 0 < size b) (g_blocks w).
Proof.
  induction 1 as [| w o n s Hreach IH Hjn Hjs | w Hreach IH | w Hreach IH].
  - constructor.
  - destruct (Z_le_gt_dec n 0) as [Hn | Hn]; [| destruct (Z_le_gt_dec s 0) as [Hs | Hs]].
    + unfold run. rewrite allocate_invalid by auto. exact IH.
    + unfold run. rewrite allocate_invalid by auto. exact IH.
    + pose proof (reachable_consistent LP64 _
                    (reach_allocate LP64 w o n s Hreach Hjn Hjs)) as Hw'.
      destruct (allocate_spec LP64 o n s w ltac:(lia) ltac:(lia))
        as (_ & _ & Hblk & Happ & _).
      rewrite <- Happ in Hblk.
      apply Forall_forall. intros b Hb.
      pose proof (proj1 (Forall_forall _ _) (blocks_ok LP64 _ Hw') b Hb) as (Hp & _).
      split; [exact Hp |].
      rewrite Hblk in Hb. apply in_app_or in Hb as [Hb | Hb].
      * exact (proj2 (proj1 (Forall_forall _ _) IH b Hb)).
      * rewrite (appended_sizes LP64 o n s w b) by (assumption || lia).
        unfold is_jint, jint_max in Hjs.
        rewrite block_size_of_exact; unfold size_modulus; simpl; lia.
  - unfold run. rewrite free_all_run. constructor.
  - exact IH.
Qed.

End Validity.

(** ** Properties of the registry *)

Section Claims.

Variable abi : Abi.

(** C1 (amended).  For every n > 0 and s > 0 whose block size
    s * 1024 * 1024 is representable in [size_t], a call
    allocate(n, s) on an empty registry in which every underlying
    allocation succeeds appends exactly n descriptors, each of size
    s * 1024 * 1024, and returns n * s * 1024 * 1024; the report then
    shows n blocks and n * s * 1024 * 1024 bytes. *)
Theorem allocate_conservation o n s w :
  reachable abi w -> g_blocks w = [] ->
  0 < n -> 0 < s ->
  s * 1024 * 1024 < 2 ^ size_bits abi ->
  let w' := run (allocateNativeBlocks abi o n s) w in
  no_failure abi (events_since w w') ->
  g_blocks w' = appended w w' /\
  Z.of_nat (length (appended w w')) = n /\
  Forall (fun b => size b = s * 1024 * 1024) (appended w w') /\
  result (allocateNativeBlocks abi o n s) w = n * s * 1024 * 1024 /\
  result (getNativeStats abi) w' = stats_text n (n * s * 1024 * 1024).
Proof.
  intros Hreach Hempty Hn Hs Hfit w' Hok.
  pose proof (reachable_consistent abi w Hreach) as Hw.
  pose proof (allocate_consistent abi o n s w Hw) as Hw'. fold w' in Hw'.
  destruct (allocate_granted_blocks abi o n s w Hn Hs Hok) as (Hblk & Hlen & Hsz & _).
  pose proof (allocate_granted_total abi o n s w Hn Hs Hok) as Htot.
  fold w' in Hblk, Hlen, Hsz, Htot.
  rewrite (block_size_of_exact abi s) in * by (unfold size_modulus; lia).
  rewrite Hempty in Hblk. simpl in Hblk.
  unfold held_bytes in Htot at 2. rewrite Hempty in Htot. simpl in Htot.
  assert (Hcount : Z.of_nat (length (appended w w')) = n) by (rewrite Hlen; lia).
  repeat apply conj.
  - assumption.
  - assumption.
  - apply Forall_forall. intros b Hb.
    apply (in_map size) in Hb. rewrite Hsz in Hb.
    now apply repeat_spec in Hb.
  - rewrite allocate_result_consistent by assumption. fold w'. lia.
  - unfold result. rewrite stats_consistent by assumption. simpl.
    rewrite Hblk, Hcount, Htot. f_equal. lia.
Qed.

(** C2.  In every state of the registry, release_all() returns the
    total that was held, which is the byte total the report shows, and
    leaves the registry empty; a second release_all(), and one on the
    registry of a fresh process, returns 0 and leaves it empty. *)
Theorem release_returns_held_total w :
  reachable abi w ->
  let released := run (freeAllNativeBlocks abi) w in
  result (freeAllNativeBlocks abi) w = held_bytes w /\
  result (getNativeStats abi) w
    = stats_text (Z.of_nat (length (g_blocks w)))
                 (result (freeAllNativeBlocks abi) w) /\
  g_blocks released = [] /\
  result (freeAllNativeBlocks abi) released = 0 /\
  g_blocks (run (freeAllNativeBlocks abi) released) = [] /\
  result (freeAllNativeBlocks abi) initial_world = 0 /\
  g_blocks (run (freeAllNativeBlocks abi) initial_world) = [].
Proof.
  intros Hreach released.
  pose proof (reachable_consistent abi w Hreach) as Hw.
  destruct (consistent_total abi w Hw) as (Htot & Hjl & _).
  assert (Hres : result (freeAllNativeBlocks abi) w = held_bytes w).
  { unfold result. rewrite free_all_run. simpl. now rewrite Htot. }
  assert (Hrel : g_blocks released = []).
  { unfold released, run. rewrite free_all_run. reflexivity. }
  repeat apply conj.
  - exact Hres.
  - rewrite Hres. unfold result. now rewrite stats_consistent.
  - exact Hrel.
  - unfold result. rewrite free_all_run, Hrel. reflexivity.
  - unfold run at 1. rewrite free_all_run. reflexivity.
  - unfold result. rewrite free_all_run. reflexivity.
  - unfold run. rewrite free_all_run. reflexivity.
Qed.

(** C3.  In every state of the registry, allocate(block_count,
    block_size_mb) with block_count <= 0 or block_size_mb <= 0 calls no
    primitive, leaves the registry as it is, and returns the total the
    registry holds. *)
Theorem allocate_rejects_non_positive o n s w :
  reachable abi w ->
  n <= 0 \/ s <= 0 ->
  allocateNativeBlocks abi o n s w = (held_bytes w, w) /\
  events_since w (run (allocateNativeBlocks abi o n s) w) = [] /\
  held_bytes w = result (total_allocated_bytes abi) w.
Proof.
  intros Hreach Hbad.
  pose proof (reachable_consistent abi w Hreach) as Hw.
  destruct (consistent_total abi w Hw) as (Htot & Hjl & _).
  rewrite allocate_invalid by assumption.
  unfold events_since, run, result. rewrite allocate_invalid by assumption. simpl.
  rewrite Htot, Hjl, skipn_all. auto.
Qed.

(** C4.  Within one call allocate(N, s) the origin is decided by the
    block index alone: the request for every even index goes to the
    page-mapping primitive and the request for every odd index to the
    heap; when N is even and every allocation succeeds, N/2 of the
    appended descriptors carry each origin tag. *)
Theorem origin_alternates o n s w :
  0 < n -> 0 < s ->
  let w' := run (allocateNativeBlocks abi o n s) w in
  map fst (requests (events_since w w'))
    = map page_mapped_index (indices 0 (Z.to_nat n)) /\
  (forall i, 0 <= i < n ->
     nth_error (map fst (requests (events_since w w'))) (Z.to_nat i)
       = Some (Z.even i)) /\
  (no_failure abi (events_since w w') ->
   map use_mmap (appended w w') = map page_mapped_index (indices 0 (Z.to_nat n)) /\
   (Z.even n = true ->
    count_origin true (appended w w') = n / 2 /\
    count_origin false (appended w w') = n / 2)).
Proof.
  intros Hn Hs w'.
  destruct (allocate_spec abi o n s w Hn Hs) as (_ & Hreq & _).
  fold w' in Hreq.
  assert (Hfst : map fst (requests (events_since w w'))
                 = map page_mapped_index (indices 0 (Z.to_nat n))).
  { rewrite Hreq, map_map. reflexivity. }
  repeat apply conj.
  - exact Hfst.
  - intros i Hi. rewrite Hfst, nth_error_map, nth_error_indices by lia.
    simpl. rewrite Z2Nat.id by lia. reflexivity.
  - intros Hok.
    destruct (allocate_granted_blocks abi o n s w Hn Hs Hok) as (_ & _ & _ & Huse).
    fold w' in Huse. split; [exact Huse |].
    intros Heven. apply Z.even_spec in Heven as [m Hm].
    assert (Hnat : Z.to_nat n = (2 * Z.to_nat m)%nat) by lia.
    rewrite Hnat in Huse.
    unfold count_origin.
    rewrite !(count_alternating _ _ _ _ Huse).
    replace (n / 2) with m by (subst n; rewrite Z.mul_comm, Z.div_mul; lia).
    split; lia.
Qed.

(** C6.  In every call of allocate with valid arguments, whatever
    allocations fail, one request is made for each block index in
    order, the descriptors appended are exactly those of the requests
    that succeeded, so each failure is one descriptor less, and the
    value returned is the total the registry holds after the call. *)
Theorem failed_allocations_are_skipped o n s w :
  reachable abi w ->
  0 < n -> 0 < s ->
  let w' := run (allocateNativeBlocks abi o n s) w in
  let evs := events_since w w' in
  requests evs
    = map (fun i => (page_mapped_index i, block_size_of abi s))
          (indices 0 (Z.to_nat n)) /\
  g_blocks w' = g_blocks w ++ granted_blocks abi evs /\
  Z.of_nat (length (appended w w'))
    = n - Z.of_nat (length (filter (allocation_failed abi) evs)) /\
  Forall (fun b => ptr b <> nullptr) (g_blocks w') /\
  result (allocateNativeBlocks abi o n s) w = held_bytes w'.
Proof.
  intros Hreach Hn Hs w' evs.
  pose proof (reachable_consistent abi w Hreach) as Hw.
  pose proof (allocate_consistent abi o n s w Hw) as Hw'. fold w' in Hw'.
  destruct (allocate_spec abi o n s w Hn Hs) as (_ & Hreq & Hblk & Happ & _).
  fold w' in Hreq, Hblk, Happ. fold evs in Hreq, Hblk, Happ.
  repeat apply conj.
  - exact Hreq.
  - exact Hblk.
  - pose proof (granted_blocks_length abi evs) as Hlen.
    rewrite Hreq, length_map, indices_length in Hlen.
    rewrite Happ. lia.
  - eapply Forall_impl; [| exact (blocks_ok abi w' Hw')]. simpl. tauto.
  - now apply allocate_result_consistent.
Qed.

(** C7.  In every state of the registry, stats() returns three
    labelled fields in the order block count, total bytes, total
    megabytes (the bytes divided by 1024 * 1024, with six fractional
    digits), one per line and each a name, an equals sign and a value;
    the byte total is the sum of the sizes of the descriptors, and the
    call leaves the state as it was.  After allocate(4, 1) from the
    empty registry the fields are nativeBlocks=4 and
    nativeBytes=4194304. *)
Theorem stats_reports_registry o w :
  reachable abi w ->
  getNativeStats abi w
    = (stats_text (Z.of_nat (length (g_blocks w))) (held_bytes w), w) /\
  count_char (ascii_of_nat 10) (result (getNativeStats abi) w) = 2%nat /\
  count_char "="%char (result (getNativeStats abi) w) = 3%nat /\
  (let w4 := run (allocateNativeBlocks abi o 4 1) initial_world in
   no_failure abi (events_since initial_world w4) ->
   result (getNativeStats abi) w4
   = String.concat newline
       ["nativeBlocks=4"; "nativeBytes=4194304"; "nativeMb=4.000000"]%string).
Proof.
  intros Hreach.
  pose proof (reachable_consistent abi w Hreach) as Hw.
  pose proof (stats_consistent abi w Hw) as Hstats.
  repeat apply conj.
  - exact Hstats.
  - unfold result. rewrite Hstats. cbn [fst].
    exact (proj1 (stats_text_shape _ _)).
  - unfold result. rewrite Hstats. cbn [fst].
    exact (proj2 (stats_text_shape _ _)).
  - intros w4 Hok. unfold result.
    pose proof (allocate_consistent abi o 4 1 _ (initial_consistent abi)) as Hw4.
    fold w4 in Hw4.
    destruct (allocate_granted_blocks abi o 4 1 initial_world
                ltac:(lia) ltac:(lia) Hok) as (Hblk & Hlen & _).
    pose proof (allocate_granted_total abi o 4 1 initial_world
                  ltac:(lia) ltac:(lia) Hok) as Htot.
    fold w4 in Hblk, Hlen, Htot.
    change (g_blocks initial_world ++ appended initial_world w4)
      with (appended initial_world w4) in Hblk.
    change (held_bytes initial_world) with 0 in Htot.
    rewrite (block_size_of_exact abi 1) in Htot
      by (unfold size_modulus; destruct abi; simpl; lia).
    rewrite (stats_consistent abi w4 Hw4). cbn [fst].
    rewrite Hblk, Hlen, Htot. vm_compute. reflexivity.
Qed.

(** C8.  For every a > 0, b > 0 and s > 0 and every starting state,
    when no allocation fails, allocate(a, s) followed by allocate(b, s)
    and a single allocate(a + b, s) end with the same block count, the
    same total bytes, the same return value and the same report. *)
Theorem allocate_additive o1 o2 o3 a b s w :
  0 < a -> 0 < b -> 0 < s ->
  let w1 := run (allocateNativeBlocks abi o1 a s) w in
  let w2 := run (allocateNativeBlocks abi o2 b s) w1 in
  let w3 := run (allocateNativeBlocks abi o3 (a + b) s) w in
  no_failure abi (events_since w w1) ->
  no_failure abi (events_since w1 w2) ->
  no_failure abi (events_since w w3) ->
  length (g_blocks w2) = length (g_blocks w3) /\
  result (total_allocated_bytes abi) w2 = result (total_allocated_bytes abi) w3 /\
  result (allocateNativeBlocks abi o2 b s) w1
    = result (allocateNativeBlocks abi o3 (a + b) s) w /\
  result (getNativeStats abi) w2 = result (getNativeStats abi) w3.
Proof.
  intros Ha Hb Hs w1 w2 w3 Hok1 Hok2 Hok3.
  destruct (allocate_granted_blocks abi o1 a s w Ha Hs Hok1) as (Hb1 & _ & Hs1 & _).
  destruct (allocate_granted_blocks abi o2 b s w1 Hb Hs Hok2) as (Hb2 & _ & Hs2 & _).
  destruct (allocate_granted_blocks abi o3 (a + b) s w ltac:(lia) Hs Hok3)
    as (Hb3 & _ & Hs3 & _).
  fold w1 in Hb1, Hs1. fold w2 in Hb2, Hs2. fold w1 in Hb2, Hs2.
  fold w3 in Hb3, Hs3.
  assert (Hsizes : map size (g_blocks w2) = map size (g_blocks w3)).
  { rewrite Hb2, Hb1, Hb3, !map_app, Hs1, Hs2, Hs3, <- app_assoc.
    rewrite <- repeat_app, Z2Nat.inj_add by lia. reflexivity. }
  assert (Hlen : length (g_blocks w2) = length (g_blocks w3)).
  { rewrite <- (length_map size), Hsizes. apply length_map. }
  assert (Htot : add_sizes abi 0 (g_blocks w2) = add_sizes abi 0 (g_blocks w3)).
  { now apply add_sizes_same_sizes. }
  destruct (allocate_spec abi o2 b s w1 Hb Hs) as (_ & _ & _ & _ & Hr2).
  destruct (allocate_spec abi o3 (a + b) s w ltac:(lia) Hs) as (_ & _ & _ & _ & Hr3).
  fold w2 in Hr2. fold w3 in Hr3.
  repeat apply conj.
  - exact Hlen.
  - exact Htot.
  - rewrite Hr2, Hr3, Htot. reflexivity.
  - unfold result. rewrite !stats_run. simpl. rewrite Hlen, Htot. reflexivity.
Qed.

(** C9.  The release path skips a descriptor whose address is null or
    whose size is zero without calling any primitive; for any other
    descriptor it makes one call, the page-unmap primitive with the
    address and the size when the origin is page-mapped and the heap
    free primitive with the address otherwise; release_all() makes
    these calls for the descriptors of the registry in their order. *)
Theorem release_dispatch b w :
  (ptr b = nullptr \/ size b = 0 -> free_block b w = (tt, w)) /\
  (ptr b <> nullptr -> size b <> 0 ->
   events_since w (run (free_block b) w)
   = [if use_mmap b then CallMunmap (ptr b) (size b) else CallFree (ptr b)]) /\
  events_since w (run (freeAllNativeBlocks abi) w)
  = flat_map (fun d => events_since w (run (free_block d) w)) (g_blocks w).
Proof.
  assert (Hone : forall d, events_since w (run (free_block d) w) = release_call d).
  { intros d. destruct (free_block_spec d w) as (_ & Ht & _).
    unfold events_since. rewrite Ht. apply skipn_exact. }
  repeat apply conj.
  - intros Hbad. rewrite free_block_run.
    replace ((ptr b =? nullptr) || (size b =? 0)) with true; [reflexivity |].
    symmetry. apply orb_true_iff.
    destruct Hbad as [H | H]; [left | right]; now apply Z.eqb_eq.
  - intros Hp Hs. rewrite Hone. unfold release_call.
    apply Z.eqb_neq in Hp, Hs. rewrite Hp, Hs. simpl.
    destruct (use_mmap b); reflexivity.
  - unfold events_since at 1, run at 1. rewrite free_all_run. simpl.
    rewrite skipn_exact. apply flat_map_ext. intros d. now rewrite Hone.
Qed.

(** C10.  The block index that decides the origin starts at 0 in every
    call of allocate, whatever the registry holds: the first request
    of a call goes to the page-mapping primitive; two calls
    allocate(1, s) in a row append two page-mapped descriptors, a
    single allocate(2, s) one page-mapped and one heap descriptor. *)
Theorem origin_index_restarts o1 o2 o3 n s w :
  0 < n -> 0 < s ->
  hd_error (requests (events_since w (run (allocateNativeBlocks abi o1 n s) w)))
    = Some (true, block_size_of abi s) /\
  (let w1 := run (allocateNativeBlocks abi o1 1 s) w in
   let w2 := run (allocateNativeBlocks abi o2 1 s) w1 in
   let w3 := run (allocateNativeBlocks abi o3 2 s) w in
   no_failure abi (events_since w w1) ->
   no_failure abi (events_since w1 w2) ->
   no_failure abi (events_since w w3) ->
   map use_mmap (appended w w2) = [true; true] /\
   map use_mmap (appended w w3) = [true; false]).
Proof.
  intros Hn Hs. split.
  - destruct (allocate_spec abi o1 n s w Hn Hs) as (_ & Hreq & _).
    rewrite Hreq.
    destruct (Z.to_nat n) as [| k] eqn:Hk; [lia | reflexivity].
  - intros w1 w2 w3 Hok1 Hok2 Hok3.
    destruct (allocate_granted_blocks abi o1 1 s w ltac:(lia) Hs Hok1)
      as (Hb1 & _ & _ & Hu1).
    destruct (allocate_granted_blocks abi o2 1 s w1 ltac:(lia) Hs Hok2)
      as (Hb2 & _ & _ & Hu2).
    destruct (allocate_granted_blocks abi o3 2 s w ltac:(lia) Hs Hok3)
      as (_ & _ & _ & Hu3).
    fold w1 in Hb1, Hu1. fold w2 in Hb2, Hu2. fold w1 in Hb2, Hu2.
    fold w3 in Hu3.
    rewrite (appended_twice w w1 w2 Hb1 Hb2), map_app, Hu1, Hu2, Hu3.
    split; reflexivity.
Qed.

End Claims.

(** ** The properties on concrete runs *)

Ltac reach_two_blocks :=
  apply reach_allocate; [apply reach_init | |];
  unfold is_jint, jint_min, jint_max; lia.

(** allocate(4, 1) in a fresh 64-bit process. *)
Lemma allocate_conservation_witness :
  let w' := run (allocateNativeBlocks LP64 spaced 4 1) initial_world in
  g_blocks w' = appended initial_world w' /\
  Z.of_nat (length (appended initial_world w')) = 4 /\
  Forall (fun b => size b = 1 * 1024 * 1024) (appended initial_world w') /\
  result (allocateNativeBlocks LP64 spaced 4 1) initial_world = 4 * 1 * 1024 * 1024 /\
  result (getNativeStats LP64) w' = stats_text 4 (4 * 1 * 1024 * 1024).
Proof.
  apply (allocate_conservation LP64 spaced 4 1 initial_world).
  - apply reach_init.
  - reflexivity.
  - lia.
  - lia.
  - simpl. lia.
  - vm_compute. reflexivity.
Defined.

(** On a 32-bit ABI, allocate(1, 4097) in a fresh process: the block
    size wraps to one mebibyte, the one allocation succeeds, and neither
    the descriptor nor the value returned is 4097 mebibytes. *)
Lemma allocate_conservation_wraps_on_ilp32 :
  let w' := run (allocateNativeBlocks ILP32 spaced 1 4097) initial_world in
  (reachable ILP32 initial_world /\
   g_blocks initial_world = [] /\
   no_failure ILP32 (events_since initial_world w')) /\
  g_blocks w' = [mkBlock 1048576 1048576 true] /\
  result (allocateNativeBlocks ILP32 spaced 1 4097) initial_world = 1048576 /\
  ~ (Forall (fun b => size b = 4097 * 1024 * 1024) (appended initial_world w') /\
     result (allocateNativeBlocks ILP32 spaced 1 4097) initial_world
       = 1 * 4097 * 1024 * 1024).
Proof.
  repeat apply conj; try (vm_compute; reflexivity).
  - apply reach_init.
  - vm_compute. intros [_ H]. discriminate H.
Qed.

(** release_all() after allocate(2, 1). *)
Lemma release_returns_held_total_witness :
  let released := run (freeAllNativeBlocks LP64) two_blocks in
  result (freeAllNativeBlocks LP64) two_blocks = held_bytes two_blocks /\
  result (getNativeStats LP64) two_blocks
    = stats_text (Z.of_nat (length (g_blocks two_blocks)))
                 (result (freeAllNativeBlocks LP64) two_blocks) /\
  g_blocks released = [] /\
  result (freeAllNativeBlocks LP64) released = 0 /\
  g_blocks (run (freeAllNativeBlocks LP64) released) = [] /\
  result (freeAllNativeBlocks LP64) initial_world = 0 /\
  g_blocks (run (freeAllNativeBlocks LP64) initial_world) = [].
Proof.
  apply (release_returns_held_total LP64 two_blocks).
  reach_two_blocks.
Defined.

(** allocate(-1, 4) after allocate(2, 1). *)
Lemma allocate_rejects_non_positive_witness :
  allocateNativeBlocks LP64 spaced (-1) 4 two_blocks
    = (held_bytes two_blocks, two_blocks) /\
  events_since two_blocks (run (allocateNativeBlocks LP64 spaced (-1) 4) two_blocks) = [] /\
  held_bytes two_blocks = result (total_allocated_bytes LP64) two_blocks.
Proof.
  apply (allocate_rejects_non_positive LP64 spaced (-1) 4 two_blocks).
  - reach_two_blocks.
  - left. lia.
Defined.

(** allocate(4, 1) in a fresh 64-bit process. *)
Lemma origin_alternates_witness :
  let w' := run (allocateNativeBlocks LP64 spaced 4 1) initial_world in
  map fst (requests (events_since initial_world w')) = [true; false; true; false] /\
  map use_mmap (appended initial_world w') = [true; false; true; false] /\
  count_origin true (appended initial_world w') = 2 /\
  count_origin false (appended initial_world w') = 2.
Proof.
  intros w'.
  destruct (origin_alternates LP64 spaced 4 1 initial_world ltac:(lia) ltac:(lia))
    as (Hreq & _ & Hgranted).
  destruct (Hgranted ltac:(vm_compute; reflexivity)) as (Huse & Hcount).
  destruct (Hcount ltac:(reflexivity)) as (Hmapped & Hheap).
  repeat apply conj.
  - exact Hreq.
  - exact Huse.
  - exact Hmapped.
  - exact Hheap.
Defined.

(** allocate(3, 1) in a fresh 32-bit process, the second allocation
    failing. *)
Lemma failed_allocations_are_skipped_witness :
  let w' := run (allocateNativeBlocks ILP32 second_fails 3 1) initial_world in
  let evs := events_since initial_world w' in
  requests evs
    = map (fun i => (page_mapped_index i, block_size_of ILP32 1))
          (indices 0 (Z.to_nat 3)) /\
  g_blocks w' = g_blocks initial_world ++ granted_blocks ILP32 evs /\
  Z.of_nat (length (appended initial_world w'))
    = 3 - Z.of_nat (length (filter (allocation_failed ILP32) evs)) /\
  Forall (fun b => ptr b <> nullptr) (g_blocks w') /\
  result (allocateNativeBlocks ILP32 second_fails 3 1) initial_world = held_bytes w'.
Proof.
  apply (failed_allocations_are_skipped ILP32 second_fails 3 1 initial_world).
  - apply reach_init.
  - lia.
  - lia.
Defined.

(** stats() after allocate(2, 1), and after allocate(4, 1) in a fresh
    process. *)
Lemma stats_reports_registry_witness :
  getNativeStats LP64 two_blocks
    = (stats_text (Z.of_nat (length (g_blocks two_blocks))) (held_bytes two_blocks),
       two_blocks) /\
  count_char (ascii_of_nat 10) (result (getNativeStats LP64) two_blocks) = 2%nat /\
  count_char "="%char (result (getNativeStats LP64) two_blocks) = 3%nat /\
  result (getNativeStats LP64)
    (run (allocateNativeBlocks LP64 spaced 4 1) initial_world)
  = String.concat newline
      ["nativeBlocks=4"; "nativeBytes=4194304"; "nativeMb=4.000000"]%string.
Proof.
  destruct (stats_reports_registry LP64 spaced two_blocks ltac:(reach_two_blocks))
    as (Hstats & Hlines & Hsigns & Hfour).
  repeat apply conj.
  - exact Hstats.
  - exact Hlines.
  - exact Hsigns.
  - exact (Hfour ltac:(vm_compute; reflexivity)).
Defined.

(** allocate(2, 2) then allocate(3, 2), against allocate(5, 2). *)
Lemma allocate_additive_witness :
  let w1 := run (allocateNativeBlocks LP64 spaced 2 2) initial_world in
  let w2 := run (allocateNativeBlocks LP64 spaced_high 3 2) w1 in
  let w3 := run (allocateNativeBlocks LP64 spaced (2 + 3) 2) initial_world in
  length (g_blocks w2) = length (g_blocks w3) /\
  result (total_allocated_bytes LP64) w2 = result (total_allocated_bytes LP64) w3 /\
  result (allocateNativeBlocks LP64 spaced_high 3 2) w1
    = result (allocateNativeBlocks LP64 spaced (2 + 3) 2) initial_world /\
  result (getNativeStats LP64) w2 = result (getNativeStats LP64) w3.
Proof.
  apply (allocate_additive LP64 spaced spaced_high spaced 2 3 2 initial_world);
    try lia; vm_compute; reflexivity.
Defined.

(** A descriptor with a null address, and a heap descriptor. *)
Lemma release_dispatch_witness :
  free_block (mkBlock 0 1048576 true) initial_world = (tt, initial_world) /\
  events_since initial_world
    (run (free_block (mkBlock 4096 1048576 false)) initial_world)
  = [CallFree 4096].
Proof.
  split.
  - apply (proj1 (release_dispatch LP64 (mkBlock 0 1048576 true) initial_world)).
    left. reflexivity.
  - apply (proj1 (proj2 (release_dispatch LP64 (mkBlock 4096 1048576 false)
                           initial_world))).
    + simpl. unfold nullptr. lia.
    + simpl. lia.
Defined.

(** Two calls allocate(1, 1) after allocate(2, 1), against one call
    allocate(2, 1). *)
Lemma origin_index_restarts_witness :
  let w1 := run (allocateNativeBlocks LP64 spaced_high 1 1) two_blocks in
  let w2 := run (allocateNativeBlocks LP64 (bump (2 ^ 31) (2 ^ 24)) 1 1) w1 in
  let w3 := run (allocateNativeBlocks LP64 spaced_high 2 1) two_blocks in
  hd_error (requests (events_since two_blocks w1)) = Some (true, block_size_of LP64 1) /\
  map use_mmap (appended two_blocks w2) = [true; true] /\
  map use_mmap (appended two_blocks w3) = [true; false].
Proof.
  intros w1 w2 w3.
  destruct (origin_index_restarts LP64 spaced_high (bump (2 ^ 31) (2 ^ 24)) spaced_high
              1 1 two_blocks ltac:(lia) ltac:(lia)) as (Hfirst & Hexample).
  destruct (Hexample ltac:(vm_compute; reflexivity) ltac:(vm_compute; reflexivity)
              ltac:(vm_compute; reflexivity)) as (Htwice & Honce).
  repeat apply conj.
  - exact Hfirst.
  - exact Htwice.
  - exact Honce.
Defined.

(** C5, on a 32-bit ABI.  allocate(2, 4096) in a fresh process computes
    the block size 4096 * 1024 * 1024 modulo 2 ^ 32, which is 0.  The
    page mapping of length 0 fails; malloc(0) returns an address, and
    the descriptor appended for it has size 0.  release_all() then
    skips it, so the address is never handed to free. *)
Theorem zero_size_block_on_ilp32 :
  let w := run (allocateNativeBlocks ILP32 heap_only 2 4096) initial_world in
  let released := run (freeAllNativeBlocks ILP32) w in
  block_size_of ILP32 4096 = 0 /\
  os_trace w = [CallMmap 0 (MAP_FAILED ILP32);
                CallMalloc 0 17825792;
                CallMemset 17825792 90 0] /\
  g_blocks w = [mkBlock 17825792 0 false] /\
  events_since w released = [] /\
  os_live released = [(17825792, 0)].
Proof. vm_compute. repeat apply conj; reflexivity. Qed.

(** ** Further properties: totals and sizes *)

Section Totals.

Variable abi : Abi.

Lemma add_sizes_mod l : forall t,
  0 <= t < size_modulus abi ->
  add_sizes abi t l = (t + sum_sizes l) mod size_modulus abi.
Proof.
  pose proof (size_modulus_pos abi) as Hm.
  induction l as [| b l IH]; intros t Ht.
  - simpl. rewrite Z.add_0_r, Z.mod_small; auto.
  - change (add_sizes abi t (b :: l))
      with (add_sizes abi (to_size_t abi (t + size b)) l).
    change (sum_sizes (b :: l)) with (size b + sum_sizes l).
    rewrite IH by apply to_size_t_range.
    unfold to_size_t. rewrite Zplus_mod_idemp_l. f_equal. lia.
Qed.

(** X1.  Whatever the vector holds, [total_allocated_bytes] is the sum
    of the sizes reduced modulo [2 ^ size_bits]: the loop wraps and
    never fails. *)
Theorem total_allocated_bytes_wraps w :
  result (total_allocated_bytes abi) w = held_bytes w mod 2 ^ size_bits abi.
Proof.
  unfold result, total_allocated_bytes, held_bytes. simpl.
  rewrite add_sizes_mod by (pose proof (size_modulus_pos abi); lia).
  reflexivity.
Qed.

Lemma sum_sizes_const len blocks :
  Forall (fun b => size b = len) blocks ->
  sum_sizes blocks = Z.of_nat (length blocks) * len.
Proof.
  induction 1 as [| b l Hb _ IH]; [reflexivity |].
  change (sum_sizes (b :: l)) with (size b + sum_sizes l).
  rewrite IH, Hb. simpl length. rewrite Nat2Z.inj_succ. lia.
Qed.

(** X4.  In every state of the registry a valid call of allocate
    returns the total held before it plus one block size for each
    request that did not fail: the shortfall of a call shows in the
    value it returns. *)
Theorem allocate_reports_shortfall o n s w :
  reachable abi w ->
  0 < n -> 0 < s ->
  let w' := run (allocateNativeBlocks abi o n s) w in
  let failures :=
    Z.of_nat (length (filter (allocation_failed abi) (events_since w w'))) in
  result (allocateNativeBlocks abi o n s) w
  = held_bytes w + (n - failures) * block_size_of abi s.
Proof.
  intros Hreach Hn Hs w' failures.
  pose proof (reachable_consistent abi w Hreach) as Hw.
  rewrite allocate_result_consistent by assumption. fold w'.
  destruct (allocate_spec abi o n s w Hn Hs) as (_ & Hreq & Hblk & Happ & _).
  fold w' in Hreq, Hblk, Happ.
  pose proof (granted_blocks_length abi (events_since w w')) as Hlen.
  rewrite Hreq, length_map, indices_length, <- Happ in Hlen.
  unfold held_bytes. rewrite Hblk, <- Happ, sum_sizes_app.
  rewrite (sum_sizes_const (block_size_of abi s) (appended w w')).
  - unfold failures. f_equal. f_equal. lia.
  - apply Forall_forall. intros b Hb.
    now apply (appended_sizes abi o n s w b).
Qed.

(** X3.  In every state of the registry, a call allocate(n, s) whose
    block size is representable and whose allocations all succeed
    returns the total of the earlier calls plus n * s * 1024 * 1024,
    and the vector is n descriptors longer. *)
Theorem allocate_accumulates o n s w :
  reachable abi w ->
  0 < n -> 0 < s ->
  s * 1024 * 1024 < 2 ^ size_bits abi ->
  let w' := run (allocateNativeBlocks abi o n s) w in
  no_failure abi (events_since w w') ->
  result (allocateNativeBlocks abi o n s) w
    = held_bytes w + n * s * 1024 * 1024 /\
  Z.of_nat (length (g_blocks w')) = Z.of_nat (length (g_blocks w)) + n.
Proof.
  intros Hreach Hn Hs Hfit w' Hok.
  pose proof (reachable_consistent abi w Hreach) as Hw.
  destruct (allocate_granted_blocks abi o n s w Hn Hs Hok) as (Hblk & Hlen & _).
  pose proof (allocate_granted_total abi o n s w Hn Hs Hok) as Htot.
  fold w' in Hblk, Hlen, Htot.
  rewrite (block_size_of_exact abi s) in Htot by (unfold size_modulus; lia).
  split.
  - rewrite allocate_result_consistent by assumption. fold w'. lia.
  - rewrite Hblk, length_app, Hlen. lia.
Qed.

(** X9.  In every state of the registry, the value allocate returns is
    a whole number of mebibytes, is not negative, and is not below the
    total held before the call. *)
Theorem allocate_result_bounds o n s w :
  reachable abi w ->
  0 <= held_bytes w <= result (allocateNativeBlocks abi o n s) w /\
  result (allocateNativeBlocks abi o n s) w mod 1048576 = 0.
Proof.
  intros Hreach.
  pose proof (reachable_consistent abi w Hreach) as Hw.
  pose proof (allocate_consistent abi o n s w Hw) as Hw'.
  destruct (consistent_total abi w Hw) as (_ & _ & Hrange & _).
  destruct (consistent_total abi _ Hw') as (_ & _ & _ & Hmib).
  rewrite allocate_result_consistent by assumption.
  split; [| exact Hmib].
  split; [lia |].
  destruct (Z_le_gt_dec n 0) as [Hn | Hn]; [| destruct (Z_le_gt_dec s 0) as [Hs | Hs]].
  - unfold run. rewrite allocate_invalid by auto. simpl. lia.
  - unfold run. rewrite allocate_invalid by auto. simpl. lia.
  - destruct (allocate_spec abi o n s w ltac:(lia) ltac:(lia)) as (_ & _ & Hblk & _).
    unfold held_bytes at 2. rewrite Hblk, sum_sizes_app.
    assert (0 <= sum_sizes (granted_blocks abi
               (events_since w (run (allocateNativeBlocks abi o n s) w)))).
    { apply sum_sizes_nonneg.
      pose proof (blocks_ok abi _ Hw') as Hall.
      rewrite Hblk in Hall. apply Forall_app in Hall as [_ Hall].
      eapply Forall_impl; [| exact Hall]. simpl. tauto. }
    unfold held_bytes. lia.
Qed.

End Totals.

(** X2.  The block size of a positive [jint] number of mebibytes: with
    a 64-bit [size_t] it is s * 1024 * 1024; with a 32-bit [size_t]
    only s modulo 4096 counts, and the size is zero exactly for the
    multiples of 4096. *)
Theorem block_size_by_abi s :
  is_jint s -> 0 < s ->
  block_size_of LP64 s = s * 1024 * 1024 /\
  block_size_of ILP32 s = (s mod 4096) * 1024 * 1024 /\
  (block_size_of ILP32 s = 0 <-> s mod 4096 = 0).
Proof.
  intros Hj Hs.
  assert (H32 : block_size_of ILP32 s = (s mod 4096) * 1024 * 1024).
  { rewrite block_size_of_mod. unfold size_modulus. simpl size_bits.
    change (2 ^ 32) with (2 ^ 20 * 4096).
    rewrite (Z.mul_comm s), Z.mul_mod_distr_l by lia. lia. }
  repeat apply conj.
  - apply block_size_of_exact; [lia |].
    now apply lp64_block_size_fits.
  - exact H32.
  - rewrite H32. lia.
  - rewrite H32. lia.
Qed.

(** ** Further properties: the calls of an allocation *)

Section Calls_made.

Variable abi : Abi.

(** The loop fills what it appends, and only that. *)
Lemma allocate_loop_fills o block_size : forall k i w,
  exists evs,
    os_trace (run (allocate_loop abi o block_size k i) w) = os_trace w ++ evs /\
    filter is_memset evs = map fill_call (granted_blocks abi evs) /\
    Forall (fun b => ptr b <> nullptr) (granted_blocks abi evs) /\
    forallb (fun e => negb (is_release e)) evs = true.
Proof.
  induction k as [| k IH]; intros i w.
  - exists []. unfold run; simpl. rewrite app_nil_r. auto.
  - rewrite allocate_loop_step.
    destruct (IH (i + 1) (run (allocate_block abi o block_size i) w))
      as (evs & Htr & Hfill & Hptr & Hrel).
    rewrite Htr, allocate_block_world.
    destruct (os_grants abi w (o i) block_size) eqn:G; simpl.
    + destruct (os_grants_address _ _ _ _ G) as (Hf & Hn & _).
      exists ([allocation_event (Z.even i) block_size (o i);
               CallMemset (o i) 90 block_size] ++ evs).
      rewrite <- !app_assoc. split; [reflexivity |].
      unfold granted_blocks in *.
      rewrite filter_app, flat_map_app, map_app, forallb_app, Hfill, Hrel.
      repeat apply conj.
      * destruct (Z.even i); simpl; rewrite ?Hf, ?Hn; reflexivity.
      * apply Forall_app. split; [| assumption].
        destruct (Z.even i); simpl; rewrite ?Hf, ?Hn; simpl;
          (constructor; [simpl; now apply Z.eqb_neq | constructor]).
      * destruct (Z.even i); reflexivity.
    + exists ([allocation_event (Z.even i) block_size
                 (failure_value abi (Z.even i))] ++ evs).
      rewrite <- !app_assoc. split; [reflexivity |].
      unfold granted_blocks in *.
      rewrite filter_app, flat_map_app, map_app, forallb_app, Hfill, Hrel.
      repeat apply conj.
      * destruct (Z.even i); simpl; rewrite ?Z.eqb_refl; reflexivity.
      * apply Forall_app. split; [| assumption].
        destruct (Z.even i); simpl; rewrite ?Z.eqb_refl; constructor.
      * destruct (Z.even i); reflexivity.
Qed.

(** X5.  A valid call of allocate, from any state, fills each block it
    appends: its memset calls are, in order, one per appended
    descriptor, at the address of the descriptor, with the byte 0x5A
    and over the whole size; no appended address is null, and the call
    never unmaps or frees. *)
Theorem allocate_fills_every_block o n s w :
  0 < n -> 0 < s ->
  let w' := run (allocateNativeBlocks abi o n s) w in
  filter is_memset (events_since w w') = map fill_call (appended w w') /\
  Forall (fun b => ptr b <> nullptr) (appended w w') /\
  filter is_release (events_since w w') = [].
Proof.
  intros Hn Hs w'.
  destruct (allocate_spec abi o n s w Hn Hs) as (_ & _ & _ & Happ & _).
  fold w' in Happ. rewrite Happ.
  assert (Hrun : w' = run (allocate_loop abi o (block_size_of abi s) (Z.to_nat n) 0) w).
  { unfold w', run at 1. now rewrite allocate_valid. }
  destruct (allocate_loop_fills o (block_size_of abi s) (Z.to_nat n) 0 w)
    as (evs & Htr & Hfill & Hptr & Hrel).
  rewrite <- Hrun in Htr.
  assert (Hevs : events_since w w' = evs).
  { unfold events_since. rewrite Htr. apply skipn_exact. }
  rewrite Hevs. repeat apply conj; try assumption.
  clear - Hrel. induction evs as [| e evs IH]; [reflexivity |].
  simpl in *. apply andb_prop in Hrel as [He Hrest].
  apply negb_true_iff in He. rewrite He. auto.
Qed.

Lemma granted_block_origin evs b :
  In b (granted_blocks abi evs) ->
  In (allocation_event (use_mmap b) (size b) (ptr b)) evs.
Proof.
  unfold granted_blocks. intros H.
  apply in_flat_map in H as (e & He & Hb).
  destruct e; simpl in Hb; try contradiction;
    match type of Hb with context [?a =? ?c] => destruct (a =? c) end;
    simpl in Hb; try contradiction; destruct Hb as [<- | []]; exact He.
Qed.

(** Every descriptor of the registry stands for a call, earlier in the
    trace, of the primitive its tag names, which returned its address
    for its size. *)
Lemma reachable_recorded w :
  reachable abi w ->
  Forall (fun b => In (allocation_event (use_mmap b) (size b) (ptr b)) (os_trace w))
         (g_blocks w).
Proof.
  induction 1 as [| w o n s Hreach IH Hjn Hjs | w Hreach IH | w Hreach IH].
  - constructor.
  - destruct (Z_le_gt_dec n 0) as [Hn | Hn]; [| destruct (Z_le_gt_dec s 0) as [Hs | Hs]].
    + unfold run. rewrite allocate_invalid by auto. exact IH.
    + unfold run. rewrite allocate_invalid by auto. exact IH.
    + destruct (allocate_spec abi o n s w ltac:(lia) ltac:(lia))
        as (Htr & _ & Hblk & _).
      rewrite Hblk, Htr. apply Forall_app. split.
      * eapply Forall_impl; [| exact IH]. intros b Hb. apply in_or_app. now left.
      * apply Forall_forall. intros b Hb. apply in_or_app. right.
        now apply granted_block_origin.
  - unfold run. rewrite free_all_run. constructor.
  - exact IH.
Qed.

(** X6.  In every state of the registry, release_all() gives each
    address back through the primitive that handed it out: what it
    unmaps was returned by mmap for that length, what it frees was
    returned by malloc, and it makes no other call. *)
Theorem release_matches_origin w :
  reachable abi w ->
  Forall (matches_origin (os_trace w))
         (events_since w (run (freeAllNativeBlocks abi) w)).
Proof.
  intros Hreach.
  pose proof (reachable_recorded w Hreach) as Hrec.
  unfold events_since, run. rewrite free_all_run. simpl.
  rewrite skipn_exact.
  apply Forall_forall. intros e He.
  apply in_flat_map in He as (b & Hb & He).
  pose proof (proj1 (Forall_forall _ _) Hrec b Hb) as Horigin.
  cbv beta in Horigin. unfold release_call in He.
  destruct ((ptr b =? nullptr) || (size b =? 0)); [contradiction |].
  destruct (use_mmap b); destruct He as [<- | []]; simpl.
  - exact Horigin.
  - exists (size b). exact Horigin.
Qed.

End Calls_made.

(** ** Further properties: what the system still holds *)

Section Ownership.

Variable abi : Abi.

Lemma drop_region_hit keep l1 e l2 :
  Forall (fun x => keep x = true) l1 -> keep e = false ->
  drop_region keep (l1 ++ e :: l2) = l1 ++ l2.
Proof.
  intros Hl1 He. induction Hl1 as [| x l1 Hx _ IH]; simpl.
  - now rewrite He.
  - now rewrite Hx, IH.
Qed.

Lemma drop_region_Forall (P : Z * Z -> Prop) keep live :
  Forall P live -> Forall P (drop_region keep live).
Proof.
  induction 1 as [| e live He Hl IH]; simpl; [constructor |].
  destruct (keep e); [constructor |]; assumption.
Qed.

Lemma os_grants_fresh w p len :
  os_grants abi w p len = true -> ~ In p (map fst (os_live w)).
Proof.
  unfold os_grants. intros H Hin.
  apply andb_prop in H as [H _]. apply andb_prop in H as [_ H].
  apply negb_true_iff in H.
  apply in_map_iff in Hin as (e & He & Hin).
  assert (Hex : existsb (fun e => fst e =? p) (os_live w) = true).
  { apply existsb_exists. exists e. split; [assumption | now apply Z.eqb_eq]. }
  congruence.
Qed.

Lemma allocate_block_owned o block_size i w :
  owned w -> owned (run (allocate_block abi o block_size i) w).
Proof.
  intros (Hnd & leaked & Hlive & Hleak).
  rewrite allocate_block_world.
  destruct (os_grants abi w (o i) block_size) eqn:G.
  - split; simpl.
    + constructor; [now apply (os_grants_fresh w _ block_size) | assumption].
    + exists leaked. split; [| assumption].
      rewrite map_app, rev_app_distr, Hlive. reflexivity.
  - split; simpl; [assumption |]. exists leaked. auto.
Qed.

Lemma allocate_loop_owned o block_size : forall k i w,
  owned w -> owned (run (allocate_loop abi o block_size k i) w).
Proof.
  induction k as [| k IH]; intros i w Hw; [exact Hw |].
  rewrite allocate_loop_step. apply IH. now apply allocate_block_owned.
Qed.

Lemma allocate_loop_live (P : Z * Z -> Prop) o block_size :
  (forall p, P (p, block_size)) ->
  forall k i w,
    Forall P (os_live w) ->
    Forall P (os_live (run (allocate_loop abi o block_size k i) w)).
Proof.
  intros HP. induction k as [| k IH]; intros i w Hw; [exact Hw |].
  rewrite allocate_loop_step. apply IH. rewrite allocate_block_world.
  destruct (os_grants abi w (o i) block_size); simpl; [constructor |]; auto.
Qed.

Lemma release_loop_live (P : Z * Z -> Prop) blocks : forall w,
  Forall P (os_live w) ->
  Forall P (os_live (run (for_each blocks free_block) w)).
Proof.
  induction blocks as [| b blocks IH]; intros w Hw; [exact Hw |].
  rewrite for_each_step. apply IH.
  unfold run. rewrite free_block_run. simpl.
  destruct ((ptr b =? nullptr) || (size b =? 0)); [assumption |].
  destruct (use_mmap b); simpl; now apply drop_region_Forall.
Qed.

(** The release loop takes from the system's list the region of every
    descriptor but those of size zero. *)
Lemma release_loop_owned blocks : forall w rest,
  NoDup (map fst (os_live w)) ->
  Forall (fun b => ptr b <> nullptr) blocks ->
  os_live w = rev (map region blocks) ++ rest ->
  let w' := run (for_each blocks free_block) w in
  NoDup (map fst (os_live w')) /\
  os_live w' = rev (map region (filter (fun b => size b =? 0) blocks)) ++ rest.
Proof.
  induction blocks as [| b blocks IH]; intros w rest Hnd Hptr Hlive.
  - unfold run; simpl. auto.
  - cbv zeta. rewrite for_each_step.
    inversion Hptr as [| ? ? Hb Hptr']; subst.
    simpl map in Hlive. simpl rev in Hlive. rewrite <- app_assoc in Hlive.
    simpl app in Hlive.
    assert (Hw1 : run (free_block b) w
                  = if size b =? 0 then w
                    else mkWorld (g_blocks w)
                           (rev (map region blocks) ++ rest)
                           (os_trace w ++ release_call b)).
    { unfold run. rewrite free_block_run. unfold release_call. simpl.
      apply Z.eqb_neq in Hb. rewrite Hb. simpl.
      destruct (size b =? 0) eqn:Hz; [reflexivity |].
      assert (Hothers : Forall (fun x => negb (fst x =? ptr b) = true)
                               (rev (map region blocks))).
      { rewrite Hlive, map_app in Hnd. simpl in Hnd.
        apply NoDup_remove_2 in Hnd.
        apply Forall_forall. intros x Hx.
        apply negb_true_iff, Z.eqb_neq. intros Heq. apply Hnd.
        apply in_or_app. left. rewrite <- Heq. now apply in_map. }
      destruct (use_mmap b); f_equal; rewrite Hlive; apply drop_region_hit.
      - eapply Forall_impl; [| exact Hothers]. intros x Hx. simpl in *.
        apply negb_true_iff in Hx. rewrite Hx. reflexivity.
      - unfold region. simpl. now rewrite !Z.eqb_refl.
      - exact Hothers.
      - unfold region. simpl. now rewrite Z.eqb_refl. }
    rewrite Hw1. simpl filter.
    destruct (size b =? 0) eqn:Hz.
    + destruct (IH w (region b :: rest) Hnd Hptr' Hlive) as [H1 H2].
      split; [exact H1 |].
      rewrite H2. simpl. rewrite <- app_assoc. reflexivity.
    + apply IH; simpl; auto.
      rewrite Hlive, map_app in Hnd. simpl in Hnd.
      apply NoDup_remove_1 in Hnd. now rewrite map_app.
Qed.

Lemma initial_owned : owned initial_world.
Proof. split; simpl; [constructor |]. exists []. auto. Qed.

Lemma reachable_owned w : reachable abi w -> owned w.
Proof.
  induction 1 as [| w o n s Hreach IH Hjn Hjs | w Hreach IH | w Hreach IH].
  - apply initial_owned.
  - destruct (Z_le_gt_dec n 0) as [Hn | Hn]; [| destruct (Z_le_gt_dec s 0) as [Hs | Hs]].
    + unfold run. rewrite allocate_invalid by auto. exact IH.
    + unfold run. rewrite allocate_invalid by auto. exact IH.
    + unfold run at 1. rewrite allocate_valid by lia. simpl.
      now apply allocate_loop_owned.
  - destruct IH as (Hnd & leaked & Hlive & Hleak).
    pose proof (reachable_consistent abi w Hreach) as Hw.
    assert (Hptr : Forall (fun b => ptr b <> nullptr) (g_blocks w)).
    { eapply Forall_impl; [| exact (blocks_ok abi w Hw)]. simpl. tauto. }
    destruct (release_loop_owned (g_blocks w) w leaked Hnd Hptr Hlive) as [H1 H2].
    unfold run at 1. rewrite free_all_run. simpl. split; simpl.
    + exact H1.
    + exists (os_live (run (for_each (g_blocks w) free_block) w)).
      split; [reflexivity |]. rewrite H2.
      apply Forall_app. split; [| assumption].
      apply Forall_rev, Forall_map, Forall_forall.
      intros b Hb. apply filter_In in Hb as [_ Hb]. simpl. now apply Z.eqb_eq.
  - exact IH.
Qed.

(** X7.  In every state of the registry, each descriptor stands for
    one region the system has handed out, and release_all() gives all
    of them back but those of size zero: the regions the system still
    lists afterwards have no bytes. *)
Theorem release_returns_every_byte w :
  reachable abi w ->
  let released := run (freeAllNativeBlocks abi) w in
  (forall b, In b (g_blocks w) -> In (region b) (os_live w)) /\
  Forall (fun e => snd e = 0) (os_live released) /\
  mapped_bytes (os_live released) = 0.
Proof.
  intros Hreach released.
  destruct (reachable_owned w Hreach) as (_ & leaked & Hlive & _).
  destruct (reachable_owned released (reach_free abi w Hreach))
    as (_ & leaked' & Hlive' & Hleak').
  assert (Hempty : g_blocks released = []).
  { unfold released, run. rewrite free_all_run. reflexivity. }
  rewrite Hempty in Hlive'. simpl in Hlive'. rewrite Hlive'.
  repeat apply conj.
  - intros b Hb. rewrite Hlive. apply in_or_app. left.
    apply in_rev. rewrite rev_involutive. now apply in_map.
  - exact Hleak'.
  - clear - Hleak'. induction Hleak' as [| e l He _ IH]; simpl; [reflexivity | lia].
Qed.

End Ownership.

(** With a 64-bit [size_t] every region handed out has bytes. *)
Lemma lp64_live_positive w :
  reachable LP64 w -> Forall (fun e => 0 < snd e) (os_live w).
Proof.
  induction 1 as [| w o n s Hreach IH Hjn Hjs | w Hreach IH | w Hreach IH].
  - constructor.
  - destruct (Z_le_gt_dec n 0) as [Hn | Hn]; [| destruct (Z_le_gt_dec s 0) as [Hs | Hs]].
    + unfold run. rewrite allocate_invalid by auto. exact IH.
    + unfold run. rewrite allocate_invalid by auto. exact IH.
    + unfold run at 1. rewrite allocate_valid by lia. simpl.
      apply allocate_loop_live; [| exact IH].
      intros p. simpl.
      rewrite block_size_of_exact; [lia | lia |].
      apply (lp64_block_size_fits s Hjs).
  - unfold run at 1. rewrite free_all_run. simpl.
    now apply release_loop_live.
  - exact IH.
Qed.

(** X8.  In a 64-bit process the system's list is, in every state of
    the registry, exactly the regions of the descriptors, and after
    release_all() it is empty: nothing the registry obtained is left
    behind. *)
Theorem lp64_release_leaves_nothing w :
  reachable LP64 w ->
  os_live w = rev (map region (g_blocks w)) /\
  os_live (run (freeAllNativeBlocks LP64) w) = [].
Proof.
  assert (Hexact : forall v, reachable LP64 v ->
                     os_live v = rev (map region (g_blocks v))).
  { intros v Hv.
    destruct (reachable_owned LP64 v Hv) as (_ & leaked & Hlive & Hleak).
    pose proof (lp64_live_positive v Hv) as Hpos.
    rewrite Hlive in Hpos. apply Forall_app in Hpos as [_ Hpos].
    destruct leaked as [| e leaked]; [now rewrite app_nil_r in Hlive |].
    inversion Hleak; inversion Hpos; subst. lia. }
  intros Hreach. split; [now apply Hexact |].
  rewrite (Hexact _ (reach_free LP64 w Hreach)).
  unfold run. rewrite free_all_run. reflexivity.
Qed.

(** X10.  In every state of the registry, the report that follows
    release_all() shows no block and no byte. *)
Theorem stats_after_release abi w :
  reachable abi w ->
  result (getNativeStats abi) (run (freeAllNativeBlocks abi) w)
  = String.concat newline
      ["nativeBlocks=0"; "nativeBytes=0"; "nativeMb=0.000000"]%string.
Proof.
  intros Hreach.
  pose proof (reachable_consistent abi _ (reach_free abi w Hreach)) as Hw.
  unfold result. rewrite (stats_consistent abi _ Hw). cbn [fst].
  unfold held_bytes, run. rewrite free_all_run. reflexivity.
Qed.

(** ** The further properties on concrete runs *)

Ltac jint_range := unfold is_jint, jint_min, jint_max; lia.

(** A block of 4097 mebibytes. *)
Lemma block_size_by_abi_witness :
  block_size_of LP64 4097 = 4097 * 1024 * 1024 /\
  block_size_of ILP32 4097 = (4097 mod 4096) * 1024 * 1024 /\
  (block_size_of ILP32 4097 = 0 <-> 4097 mod 4096 = 0).
Proof. apply (block_size_by_abi 4097); [jint_range | lia]. Defined.

(** allocate(3, 1) after allocate(2, 1). *)
Lemma allocate_accumulates_witness :
  let w' := run (allocateNativeBlocks LP64 spaced_high 3 1) two_blocks in
  result (allocateNativeBlocks LP64 spaced_high 3 1) two_blocks
    = held_bytes two_blocks + 3 * 1 * 1024 * 1024 /\
  Z.of_nat (length (g_blocks w')) = Z.of_nat (length (g_blocks two_blocks)) + 3.
Proof.
  apply (allocate_accumulates LP64 spaced_high 3 1 two_blocks).
  - reach_two_blocks.
  - lia.
  - lia.
  - simpl. lia.
  - vm_compute. reflexivity.
Defined.

(** allocate(3, 1) in a fresh 32-bit process, the second allocation
    failing. *)
Lemma allocate_reports_shortfall_witness :
  let w' := run (allocateNativeBlocks ILP32 second_fails 3 1) initial_world in
  let failures :=
    Z.of_nat (length (filter (allocation_failed ILP32)
                             (events_since initial_world w'))) in
  result (allocateNativeBlocks ILP32 second_fails 3 1) initial_world
  = held_bytes initial_world + (3 - failures) * block_size_of ILP32 1.
Proof.
  apply (allocate_reports_shortfall ILP32 second_fails 3 1 initial_world).
  - apply reach_init.
  - lia.
  - lia.
Defined.

(** allocate(3, 1) after allocate(2, 1), the second allocation failing. *)
Lemma allocate_result_bounds_witness :
  0 <= held_bytes two_blocks
    <= result (allocateNativeBlocks LP64 second_fails 3 1) two_blocks /\
  result (allocateNativeBlocks LP64 second_fails 3 1) two_blocks mod 1048576 = 0.
Proof.
  apply (allocate_result_bounds LP64 second_fails 3 1 two_blocks).
  reach_two_blocks.
Defined.

(** allocate(2, 1) in a fresh 64-bit process. *)
Lemma allocate_fills_every_block_witness :
  let w' := run (allocateNativeBlocks LP64 spaced 2 1) initial_world in
  filter is_memset (events_since initial_world w')
    = map fill_call (appended initial_world w') /\
  Forall (fun b => ptr b <> nullptr) (appended initial_world w') /\
  filter is_release (events_since initial_world w') = [].
Proof.
  apply (allocate_fills_every_block LP64 spaced 2 1 initial_world); lia.
Defined.

(** release_all() after allocate(2, 1). *)
Lemma release_matches_origin_witness :
  Forall (matches_origin (os_trace two_blocks))
         (events_since two_blocks (run (freeAllNativeBlocks LP64) two_blocks)).
Proof.
  apply (release_matches_origin LP64 two_blocks).
  reach_two_blocks.
Defined.

(** release_all() in a 32-bit process after allocate(2, 4096), which
    left a descriptor of size zero. *)
Lemma release_returns_every_byte_witness :
  let w := run (allocateNativeBlocks ILP32 heap_only 2 4096) initial_world in
  let released := run (freeAllNativeBlocks ILP32) w in
  (forall b, In b (g_blocks w) -> In (region b) (os_live w)) /\
  Forall (fun e => snd e = 0) (os_live released) /\
  mapped_bytes (os_live released) = 0.
Proof.
  apply (release_returns_every_byte ILP32
           (run (allocateNativeBlocks ILP32 heap_only 2 4096) initial_world)).
  apply reach_allocate; [apply reach_init | jint_range | jint_range].
Defined.

(** release_all() after allocate(2, 1). *)
Lemma lp64_release_leaves_nothing_witness :
  os_live two_blocks = rev (map region (g_blocks two_blocks)) /\
  os_live (run (freeAllNativeBlocks LP64) two_blocks) = [].
Proof.
  apply (lp64_release_leaves_nothing two_blocks).
  reach_two_blocks.
Defined.

(** stats() after allocate(2, 1) and release_all(). *)
Lemma stats_after_release_witness :
  result (getNativeStats LP64) (run (freeAllNativeBlocks LP64) two_blocks)
  = String.concat newline
      ["nativeBlocks=0"; "nativeBytes=0"; "nativeMb=0.000000"]%string.
Proof.
  apply (stats_after_release LP64 two_blocks).
  reach_two_blocks.
Defined.

(** ** Further properties: failure of every request, and the round trip *)

(** X11.  In every state of the registry, a valid call of allocate in
    which all the requests fail leaves the vector as it was, fills
    nothing, and returns the total held before the call. *)
Theorem allocate_all_failed abi o n s w :
  reachable abi w ->
  0 < n -> 0 < s ->
  let w' := run (allocateNativeBlocks abi o n s) w in
  Z.of_nat (length (filter (allocation_failed abi) (events_since w w'))) = n ->
  g_blocks w' = g_blocks w /\
  filter is_memset (events_since w w') = [] /\
  result (allocateNativeBlocks abi o n s) w = held_bytes w.
Proof.
  intros Hreach Hn Hs w' Hall.
  destruct (allocate_spec abi o n s w Hn Hs) as (_ & Hreq & Hblk & Happ & _).
  fold w' in Hreq, Hblk, Happ.
  pose proof (granted_blocks_length abi (events_since w w')) as Hlen.
  rewrite Hreq, length_map, indices_length in Hlen.
  assert (Hnone : granted_blocks abi (events_since w w') = []).
  { destruct (granted_blocks abi (events_since w w')); [reflexivity |].
    simpl in Hlen. lia. }
  destruct (allocate_fills_every_block abi o n s w Hn Hs) as (Hfill & _).
  fold w' in Hfill. rewrite Happ, Hnone in Hfill.
  rewrite Hnone, app_nil_r in Hblk.
  repeat apply conj.
  - exact Hblk.
  - exact Hfill.
  - rewrite allocate_result_consistent by now apply reachable_consistent.
    fold w'. unfold held_bytes. now rewrite Hblk.
Qed.

(** X12.  In every state of the registry, release_all() called right
    after allocate returns the value that allocate returned. *)
Theorem release_after_allocate abi o n s w :
  reachable abi w ->
  result (freeAllNativeBlocks abi) (run (allocateNativeBlocks abi o n s) w)
  = result (allocateNativeBlocks abi o n s) w.
Proof.
  intros Hreach.
  pose proof (reachable_consistent abi w Hreach) as Hw.
  pose proof (allocate_consistent abi o n s w Hw) as Hw'.
  destruct (consistent_total abi _ Hw') as (Htot & Hjl & _).
  rewrite allocate_result_consistent by assumption.
  unfold result at 1. rewrite free_all_run. simpl. now rewrite Htot.
Qed.

(** allocate(2, 1) after allocate(2, 1), the system granting nothing. *)
Lemma allocate_all_failed_witness :
  let w' := run (allocateNativeBlocks LP64 (fun _ => 0) 2 1) two_blocks in
  g_blocks w' = g_blocks two_blocks /\
  filter is_memset (events_since two_blocks w') = [] /\
  result (allocateNativeBlocks LP64 (fun _ => 0) 2 1) two_blocks
    = held_bytes two_blocks.
Proof.
  apply (allocate_all_failed LP64 (fun _ => 0) 2 1 two_blocks).
  - reach_two_blocks.
  - lia.
  - lia.
  - vm_compute. reflexivity.
Defined.

(** allocate(3, 1) with a failure, then release_all(). *)
Lemma release_after_allocate_witness :
  result (freeAllNativeBlocks LP64)
         (run (allocateNativeBlocks LP64 second_fails 3 1) initial_world)
  = result (allocateNativeBlocks LP64 second_fails 3 1) initial_world.
Proof.
  apply (release_after_allocate LP64 second_fails 3 1 initial_world).
  apply reach_init.
Defined.
